(** * hcat: pollable, cancellable Consul dependencies

    A shallow embedding of [internal/dependency/kv_list.go] and of the
    health-service query of the same package, together with the parts of
    the Go runtime and standard library that these two files rely on
    (channels, [strings], [sort], [regexp]). *)

From stdpp Require Import gmap strings list sorting.
From Stdlib Require Import Ascii NArith ZArith.

Open Scope string_scope.

(** * Go runtime: panics and channels *)

(** A Go call either returns or panics with a runtime error. *)
Inductive outcome (A : Type) : Type :=
  | Done (a : A)
  | Panic (msg : string).
Arguments Done {A} a.
Arguments Panic {A} msg.

Global Instance outcome_ret : MRet outcome := fun _ a => Done a.
Global Instance outcome_bind : MBind outcome := fun _ _ f m =>
  match m with
  | Done a => f a
  | Panic msg => Panic msg
  end.
Global Instance outcome_fmap : FMap outcome := fun _ _ f m =>
  match m with
  | Done a => Done (f a)
  | Panic msg => Panic msg
  end.

Definition index_out_of_range : string := "index out of range".
Definition close_of_closed_channel : string := "close of closed channel".
Definition close_of_nil_channel : string := "close of nil channel".

(** A [chan struct{}]: the nil channel, or a channel with a capacity, the
    number of values queued in its buffer and its closed flag.  The values
    carry no information, so the buffer is a counter. *)
Inductive chan : Type :=
  | NilChan
  | Chan (capacity queued : nat) (closed : bool).

(** [make(chan struct{}, n)] *)
Definition make_chan (n : nat) : chan := Chan n 0 false.

(** [close(c)]: closing a nil or an already closed channel panics. *)
Definition close (c : chan) : outcome chan :=
  match c with
  | NilChan => Panic close_of_nil_channel
  | Chan cap q true => Panic close_of_closed_channel
  | Chan cap q false => Done (Chan cap q true)
  end.

(** [select { case <-c: ...; default: ... }]: a receive that never blocks.
    It yields [true] with the channel after the receive when a value is
    queued or the channel is closed, and [false] (the default case)
    otherwise.  A nil channel is never ready. *)
Definition select_recv_default (c : chan) : bool * chan :=
  match c with
  | NilChan => (false, c)
  | Chan cap (S q) closed => (true, Chan cap q closed)
  | Chan cap 0 true => (true, c)
  | Chan cap 0 false => (false, c)
  end.

Definition is_closed (c : chan) : bool :=
  match c with
  | Chan _ _ true => true
  | _ => false
  end.

(** * Go standard library: strings *)

Definition ascii_eqb (a b : ascii) : bool := bool_decide (a = b).

(** [strings.HasPrefix] *)
Fixpoint HasPrefix (s p : string) {struct p} : bool :=
  match p, s with
  | EmptyString, _ => true
  | String b p', String a s' => ascii_eqb a b && HasPrefix s' p'
  | String _ _, EmptyString => false
  end.

Fixpoint drop_string (n : nat) (s : string) : string :=
  match n, s with
  | S n', String _ s' => drop_string n' s'
  | _, _ => s
  end.

(** [strings.TrimPrefix]: [s] without the leading [p], or [s] itself when
    it does not start with [p]. *)
Definition TrimPrefix (s p : string) : string :=
  if HasPrefix s p then drop_string (String.length p) s else s.

Fixpoint in_cutset (c : ascii) (cutset : string) : bool :=
  match cutset with
  | EmptyString => false
  | String x rest => ascii_eqb c x || in_cutset c rest
  end.

(** [strings.TrimLeft]: drops every leading byte that occurs in [cutset]. *)
Fixpoint TrimLeft (s cutset : string) : string :=
  match s with
  | EmptyString => EmptyString
  | String c s' => if in_cutset c cutset then TrimLeft s' cutset else s
  end.

Fixpoint TrimLeftFunc (f : ascii -> bool) (s : string) : string :=
  match s with
  | EmptyString => EmptyString
  | String c s' => if f c then TrimLeftFunc f s' else s
  end.

Definition TrimRightFunc (f : ascii -> bool) (s : string) : string :=
  String.rev (TrimLeftFunc f (String.rev s)).

(** [strings.TrimSpace] on the ASCII white space (tab, line feed, vertical
    tab, form feed, carriage return, space).  The multi-byte Unicode
    spaces are left out: the filter pattern admits word characters and
    commas only. *)
Definition TrimSpace (s : string) : string :=
  TrimRightFunc Ascii.is_space (TrimLeftFunc Ascii.is_space s).

(** [strings.Split(s, sep)] for a one-byte separator: the pieces between
    the separators, of which there is always at least one. *)
Fixpoint Split (s : string) (sep : ascii) : list string :=
  match s with
  | EmptyString => [EmptyString]
  | String c s' =>
      if ascii_eqb c sep then EmptyString :: Split s' sep
      else match Split s' sep with
           | piece :: rest => String c piece :: rest
           | [] => [String c EmptyString]
           end
  end.

(** [strings.Join] *)
Definition Join (elems : list string) (sep : string) : string :=
  String.concat sep elems.

(** [sort.Strings]: ascending byte-wise order.  Equal strings cannot be
    told apart, so the result does not depend on the sorting algorithm. *)
Definition sort_Strings (l : list string) : list string :=
  merge_sort String.le l.

(** * Go standard library: regexp

    The fragment of RE2 syntax the package's patterns are written in, with
    a backtracking matcher that explores alternatives in Go's
    leftmost-first order: a greedy repetition tries the longest run first
    and an optional group is tried before it is skipped. *)
Inductive regex : Type :=
  | Lit (c : ascii)                    (* a literal byte *)
  | PlusClass (cls : ascii -> bool)    (* [...]+ *)
  | Opt (r : regex)                    (* (...)? *)
  | Cat (r1 r2 : regex)
  | Named (name : string) (r : regex). (* (?P<name>...) *)

Abbreviation captures := (gmap string string).

Fixpoint match_plus (cls : ascii -> bool) (s : string) (caps : captures)
    (k : string -> captures -> option captures) : option captures :=
  match s with
  | EmptyString => None
  | String c s' =>
      if cls c then
        match match_plus cls s' caps k with
        | Some m => Some m
        | None => k s' caps
        end
      else None
  end.

Definition take_string (n : nat) (s : string) : string := String.substring 0 n s.

Fixpoint match_re (r : regex) (s : string) (caps : captures)
    (k : string -> captures -> option captures) : option captures :=
  match r with
  | Lit c =>
      match s with
      | String c' s' => if ascii_eqb c' c then k s' caps else None
      | EmptyString => None
      end
  | PlusClass cls => match_plus cls s caps k
  | Opt r' =>
      match match_re r' s caps k with
      | Some m => Some m
      | None => k s caps
      end
  | Cat r1 r2 => match_re r1 s caps (fun s' caps' => match_re r2 s' caps' k)
  | Named name r' =>
      match_re r' s caps (fun s' caps' =>
        k s' (<[name := take_string (String.length s - String.length s') s]> caps'))
  end.

(** A pattern between [\A] and [\z]: the whole input has to match. *)
Definition match_anchored (r : regex) (s : string) : option captures :=
  match_re r s ∅ (fun rest caps => if decide (rest = EmptyString) then Some caps else None).

(** [re.MatchString(s)] *)
Definition MatchString (r : regex) (s : string) : bool :=
  bool_decide (is_Some (match_anchored r s)).

(** Indexing a Go [map[string]string]: an absent key reads as the empty
    string. *)
Definition map_index (m : captures) (key : string) : string :=
  default EmptyString (m !! key).

(** * Package constants *)

Definition HealthAny : string := "any".
Definition HealthPassing : string := "passing".
Definition HealthWarning : string := "warning".
Definition HealthCritical : string := "critical".
Definition HealthMaint : string := "maintenance".

Definition NodeMaint : string := "_node_maintenance".
Definition ServiceMaint : string := "_service_maintenance:".

(** ** The identifier patterns *)

Definition in_range (lo hi c : ascii) : bool :=
  (N_of_ascii lo <=? N_of_ascii c)%N && (N_of_ascii c <=? N_of_ascii hi)%N.

(** [[:word:]] *)
Definition is_word (c : ascii) : bool :=
  in_range "0" "9" c || in_range "A" "Z" c || in_range "a" "z" c || ascii_eqb c "_".

Definition word_or (extra : string) (c : ascii) : bool :=
  is_word c || in_cutset c extra.

(** Modelled from the spec: the segment patterns [tagRe], [serviceNameRe],
    [dcRe], [nearRe], [filterRe] and [prefixRe] are constants of the
    package that the two source files use but do not declare.  The order
    of the segments and their introducers ([.] after a tag, [@] before the
    datacenter, [~] before the near node, [|] before the comma-separated
    filters, an optional leading [/] before a prefix) are those of the
    identifier grammar; every segment is a non-empty run of word
    characters and of the punctuation that may occur inside it. *)
Definition dcRe : regex :=
  Opt (Cat (Lit "@") (Named "dc" (PlusClass (word_or ".-_")))).
Definition filterRe : regex :=
  Opt (Cat (Lit "|") (Named "filter" (PlusClass (word_or ",")))).
Definition serviceNameRe : regex :=
  Named "name" (PlusClass (word_or "-_")).
Definition nearRe : regex :=
  Opt (Cat (Lit "~") (Named "near" (PlusClass (word_or ".-_")))).
Definition prefixRe : regex :=
  Cat (Opt (Lit "/")) (Named "prefix" (PlusClass (fun c => negb (ascii_eqb c "@")))).
Definition tagRe : regex :=
  Opt (Cat (Named "tag" (PlusClass (word_or "=:.-_"))) (Lit ".")).

Definition KVListQueryRe : regex := Cat prefixRe dcRe.

Definition HealthServiceQueryRe : regex :=
  Cat tagRe (Cat serviceNameRe (Cat dcRe (Cat nearRe filterRe))).

(** Modelled from the spec: [regexpMatch] is a helper of the package that
    is not among the sources.  It returns the named segments of the match
    as a map, and an empty map when the pattern does not match. *)
Definition regexpMatch (re : regex) (q : string) : captures :=
  default ∅ (match_anchored re q).

(** * Errors *)

(** The error values of the package.  [InvalidFormat] and [InvalidFilter]
    stand for the [fmt.Errorf] values of the parsers, with the operands of
    their [%q] verbs as arguments; [TransportError] is whatever error the
    Consul client hands back; [WithMessage msg cause] is
    [errors.Wrap(cause, msg)]. *)
Inductive error : Type :=
  | ErrStopped
  | InvalidFormat (kind input : string)
  | InvalidFilter (kind token input : string)
  | TransportError (msg : string)
  | WithMessage (msg : string) (cause : error).

(** [errors.Wrap] *)
Definition Wrap (err : error) (msg : string) : error := WithMessage msg err.

(** [errors.Cause] *)
Fixpoint Cause (err : error) : error :=
  match err with
  | WithMessage _ cause => Cause cause
  | _ => err
  end.

(** * Query options and response metadata *)

(** Modelled from the spec: [QueryOptions], its [Merge] and the conversion
    to the client's options are declared elsewhere in the package.  The
    fields are the long-poll parameters (wait index, wait duration,
    staleness tolerance, datacenter, near node); a field of the override
    that has its zero value keeps the base's value, any other one wins. *)
Record QueryOptions : Type := mkQueryOptions {
  AllowStale : bool;
  Datacenter : string;
  Near : string;
  WaitIndex : N;
  WaitTime : Z
}.

Definition zero_QueryOptions : QueryOptions :=
  mkQueryOptions false EmptyString EmptyString 0%N 0%Z.

Definition Merge (q o : QueryOptions) : QueryOptions :=
  {| AllowStale := if AllowStale o then true else AllowStale q;
     Datacenter := if decide (Datacenter o = EmptyString) then Datacenter q else Datacenter o;
     Near := if decide (Near o = EmptyString) then Near q else Near o;
     WaitIndex := if decide (WaitIndex o = 0%N) then WaitIndex q else WaitIndex o;
     WaitTime := if decide (WaitTime o = 0%Z) then WaitTime q else WaitTime o |}.

(** [api.QueryMeta], as far as Fetch reads it. *)
Record QueryMeta : Type := mkQueryMeta {
  qm_LastIndex : N;
  qm_LastContact : Z
}.

(** [dep.ResponseMetadata] *)
Record ResponseMetadata : Type := mkResponseMetadata {
  LastIndex : N;
  LastContact : Z
}.

(** * The Consul client: raw records *)

(** [api.KVPair] *)
Record api_KVPair : Type := mk_api_KVPair {
  kv_Key : string;
  kv_CreateIndex : N;
  kv_ModifyIndex : N;
  kv_LockIndex : N;
  kv_Flags : N;
  kv_Value : string;   (* []byte *)
  kv_Session : string
}.

(** [api.HealthCheckDefinition], abridged: the record is copied as a
    whole. *)
Record api_HealthCheckDefinition : Type := mk_api_HealthCheckDefinition {
  def_HTTP : string;
  def_TCP : string;
  def_Interval : Z;
  def_Timeout : Z
}.

(** [api.HealthCheck] *)
Record api_HealthCheck : Type := mk_api_HealthCheck {
  c_Node : string;
  c_CheckID : string;
  c_Name : string;
  c_Status : string;
  c_Notes : string;
  c_Output : string;
  c_ServiceID : string;
  c_ServiceName : string;
  c_ServiceTags : list string;
  c_Type : string;
  c_Namespace : string;
  c_Definition : api_HealthCheckDefinition
}.

(** [api.Node] *)
Record api_Node : Type := mk_api_Node {
  n_ID : string;
  n_Node : string;
  n_Address : string;
  n_Datacenter : string;
  n_TaggedAddresses : gmap string string;
  n_Meta : gmap string string
}.

(** [api.AgentWeights] *)
Record api_AgentWeights : Type := mk_api_AgentWeights {
  w_Passing : Z;
  w_Warning : Z
}.

(** [api.AgentService], as far as Fetch reads it. *)
Record api_AgentService : Type := mk_api_AgentService {
  s_ID : string;
  s_Service : string;
  s_Tags : list string;
  s_Meta : gmap string string;
  s_Port : Z;
  s_Address : string;
  s_Weights : api_AgentWeights;
  s_Namespace : string
}.

(** [api.ServiceEntry] *)
Record api_ServiceEntry : Type := mk_api_ServiceEntry {
  e_Node : api_Node;
  e_Service : api_AgentService;
  e_Checks : list api_HealthCheck
}.

(** [api.HealthChecks.AggregatedStatus]: maintenance, then critical, then
    warning, then passing; a check with any other status makes the result
    empty. *)
Fixpoint aggregate (checks : list api_HealthCheck)
    (passing warning critical maintenance : bool) : string :=
  match checks with
  | [] =>
      if maintenance then HealthMaint
      else if critical then HealthCritical
      else if warning then HealthWarning
      else HealthPassing
  | check :: rest =>
      let id := c_CheckID check in
      if bool_decide (id = NodeMaint) || HasPrefix id ServiceMaint
      then aggregate rest passing warning critical true
      else if decide (c_Status check = HealthPassing)
      then aggregate rest true warning critical maintenance
      else if decide (c_Status check = HealthWarning)
      then aggregate rest passing true critical maintenance
      else if decide (c_Status check = HealthCritical)
      then aggregate rest passing warning true maintenance
      else EmptyString
  end.

Definition AggregatedStatus (checks : list api_HealthCheck) : string :=
  aggregate checks false false false false.

(** ** The transport

    [dep.Clients] hands out the Consul client; of it, Fetch uses
    [KV().List], [Health().Service] and [Health().Connect].  A call either
    fails or returns the raw records with the query metadata.  The calls
    made are recorded in a trace. *)
Definition response (A : Type) : Type := (list A * QueryMeta) + error.

Record Clients : Type := mkClients {
  KV_List : string -> QueryOptions -> response api_KVPair;
  Health_Service : string -> string -> bool -> QueryOptions -> response api_ServiceEntry;
  Health_Connect : string -> string -> bool -> QueryOptions -> response api_ServiceEntry
}.

Inductive call : Type :=
  | CallKVList (prefix : string) (opts : QueryOptions)
  | CallHealthService (name tag : string) (passingOnly : bool) (opts : QueryOptions)
  | CallHealthConnect (name tag : string) (passingOnly : bool) (opts : QueryOptions).

Definition trace : Type := list call.

(** * Go standard library: sort

    [sort.Interface] and [sort.Stable], after the library's source:
    insertion sort on blocks of 20 elements, then rounds of in-place
    merges ([symMerge]) of neighbouring blocks.  Indices are [nat]; a
    method call with an index outside the slice panics. *)
Class Interface (T : Type) : Type := {
  Len : T -> nat;
  Less : T -> nat -> nat -> outcome bool;
  Swap : T -> nat -> nat -> outcome T
}.

(** Raised when a loop of the library would not terminate; the loops
    below are given enough fuel for this never to happen on the calls
    [Stable] makes. *)
Definition diverges : string := "diverges".

Section sort.
Context {T : Type} `{Interface T}.

(** [for j := i; j > a && data.Less(j, j-1); j-- { data.Swap(j, j-1) }] *)
Fixpoint insertionSort_inner (data : T) (a j : nat) : outcome T :=
  match j with
  | 0 => Done data
  | S j' =>
      if decide (a < j) then
        lt ← Less data j j';
        if lt : bool then data' ← Swap data j j'; insertionSort_inner data' a j'
        else Done data
      else Done data
  end.

(** [for i := ...; i < b; i++], with [n] iterations left. *)
Fixpoint insertionSort_outer (data : T) (a i n : nat) : outcome T :=
  match n with
  | 0 => Done data
  | S n' => data' ← insertionSort_inner data a i; insertionSort_outer data' a (S i) n'
  end.

Definition insertionSort (data : T) (a b : nat) : outcome T :=
  insertionSort_outer data a (a + 1) (b - (a + 1)).

(** [for i := 0; i < n; i++ { data.Swap(a+i, b+i) }] *)
Fixpoint swapRange_loop (data : T) (a b i n : nat) : outcome T :=
  match n with
  | 0 => Done data
  | S n' => data' ← Swap data (a + i) (b + i); swapRange_loop data' a b (S i) n'
  end.

Definition swapRange (data : T) (a b n : nat) : outcome T :=
  swapRange_loop data a b 0 n.

Fixpoint rotate_loop (fuel : nat) (data : T) (m i j : nat) : outcome T :=
  if decide (i = j) then swapRange data (m - i) m i
  else
    match fuel with
    | 0 => Panic diverges
    | S fuel' =>
        if decide (j < i) then
          data' ← swapRange data (m - i) m j;
          rotate_loop fuel' data' m (i - j) j
        else
          data' ← swapRange data (m - i) (m + j - i) i;
          rotate_loop fuel' data' m i (j - i)
    end.

Definition rotate (data : T) (a m b : nat) : outcome T :=
  rotate_loop (b - a) data m (m - a) (b - m).

(** The three binary searches of [symMerge]; each returns the final
    value of its lower bound. *)
Fixpoint search_first (fuel : nat) (data : T) (a i j : nat) : outcome nat :=
  if decide (i < j) then
    match fuel with
    | 0 => Panic diverges
    | S fuel' =>
        let h := (i + j) / 2 in
        lt ← Less data h a;
        if lt : bool then search_first fuel' data a (h + 1) j
        else search_first fuel' data a i h
    end
  else Done i.

Fixpoint search_last (fuel : nat) (data : T) (m i j : nat) : outcome nat :=
  if decide (i < j) then
    match fuel with
    | 0 => Panic diverges
    | S fuel' =>
        let h := (i + j) / 2 in
        lt ← Less data m h;
        if negb lt then search_last fuel' data m (h + 1) j
        else search_last fuel' data m i h
    end
  else Done i.

Fixpoint search_sym (fuel : nat) (data : T) (p start r : nat) : outcome nat :=
  if decide (start < r) then
    match fuel with
    | 0 => Panic diverges
    | S fuel' =>
        let c := (start + r) / 2 in
        lt ← Less data (p - c) c;
        if negb lt then search_sym fuel' data p (c + 1) r
        else search_sym fuel' data p start c
    end
  else Done start.

(** [for k := a; k < i-1; k++ { data.Swap(k, k+1) }] *)
Fixpoint bubble_up (data : T) (k n : nat) : outcome T :=
  match n with
  | 0 => Done data
  | S n' => data' ← Swap data k (k + 1); bubble_up data' (S k) n'
  end.

(** [for k := m; k > i; k-- { data.Swap(k, k-1) }] *)
Fixpoint bubble_down (data : T) (k n : nat) : outcome T :=
  match n with
  | 0 => Done data
  | S n' => data' ← Swap data k (k - 1); bubble_down data' (k - 1) n'
  end.

Fixpoint symMerge (fuel : nat) (data : T) (a m b : nat) : outcome T :=
  if decide (m - a = 1) then
    i ← search_first (b - m) data a m b;
    bubble_up data a (i - 1 - a)
  else if decide (b - m = 1) then
    i ← search_last (m - a) data m a m;
    bubble_down data m (m - i)
  else
    match fuel with
    | 0 => Panic diverges
    | S fuel' =>
        let mid := (a + b) / 2 in
        let n := mid + m in
        let '(start0, r) := if decide (mid < m) then (n - b, mid) else (a, m) in
        let p := n - 1 in
        start ← search_sym (r - start0) data p start0 r;
        let end_ := n - start in
        data1 ← (if decide (start < m ∧ m < end_) then rotate data start m end_
                 else Done data);
        data2 ← (if decide (a < start ∧ start < mid) then symMerge fuel' data1 a start mid
                 else Done data1);
        if decide (mid < end_ ∧ end_ < b) then symMerge fuel' data2 mid end_ b
        else Done data2
    end.

(** First loop of [stable]: insertion sort of the full blocks, from
    block start [a]; returns the start of the last, partial block. *)
Fixpoint stable_blocks (fuel : nat) (data : T) (blockSize a n : nat) : outcome (T * nat) :=
  if decide (a + blockSize <= n) then
    match fuel with
    | 0 => Panic diverges
    | S fuel' =>
        data' ← insertionSort data a (a + blockSize);
        stable_blocks fuel' data' blockSize (a + blockSize) n
    end
  else Done (data, a).

(** Inner loop of the merge rounds: merges the pairs of full blocks. *)
Fixpoint stable_pairs (fuel : nat) (data : T) (blockSize a n : nat) : outcome (T * nat) :=
  if decide (a + 2 * blockSize <= n) then
    match fuel with
    | 0 => Panic diverges
    | S fuel' =>
        data' ← symMerge n data a (a + blockSize) (a + 2 * blockSize);
        stable_pairs fuel' data' blockSize (a + 2 * blockSize) n
    end
  else Done (data, a).

(** [for blockSize < n { ...; blockSize *= 2 }] *)
Fixpoint stable_rounds (fuel : nat) (data : T) (blockSize n : nat) : outcome T :=
  if decide (blockSize < n) then
    match fuel with
    | 0 => Panic diverges
    | S fuel' =>
        '(data1, a) ← stable_pairs n data blockSize 0 n;
        data2 ← (let m := a + blockSize in
                 if decide (m < n) then symMerge n data1 a m n else Done data1);
        stable_rounds fuel' data2 (blockSize * 2) n
    end
  else Done data.

Definition stable (data : T) (n : nat) : outcome T :=
  let blockSize := 20 in
  '(data1, a) ← stable_blocks n data blockSize 0 n;
  data2 ← insertionSort data1 a n;
  stable_rounds n data2 blockSize n.

(** [sort.Stable] *)
Definition Stable (data : T) : outcome T := stable data (Len data).
End sort.

(** * Package types *)

(** [KeyPair] *)
Record KeyPair : Type := mkKeyPair {
  Path : string;
  Key : string;
  Value : string;
  CreateIndex : N;
  ModifyIndex : N;
  LockIndex : N;
  Flags : N;
  Session : string
}.

(** [HealthCheck] *)
Record HealthCheck : Type := mkHealthCheck {
  hc_Node : string;
  hc_CheckID : string;
  hc_Name : string;
  hc_Status : string;
  hc_Notes : string;
  hc_Output : string;
  hc_ServiceID : string;
  hc_ServiceName : string;
  hc_ServiceTags : list string;
  hc_Type : string;
  hc_Namespace : string;
  hc_Definition : api_HealthCheckDefinition
}.

(** [HealthService] *)
Record HealthService : Type := mkHealthService {
  Node : string;
  NodeID : string;
  NodeAddress : string;
  NodeDatacenter : string;
  NodeTaggedAddresses : gmap string string;
  NodeMeta : gmap string string;
  ServiceMeta : gmap string string;
  Address : string;
  ID : string;
  Name : string;
  Tags : list string;
  Checks : list HealthCheck;
  Status : string;
  Port : Z;
  Weights : api_AgentWeights;
  Namespace : string
}.

(** [KVListQuery] *)
Record KVListQuery : Type := mkKVListQuery {
  kvq_stopCh : chan;
  kvq_dc : string;
  kvq_prefix : string;
  kvq_opts : QueryOptions
}.

(** [HealthServiceQuery] *)
Record HealthServiceQuery : Type := mkHealthServiceQuery {
  hsq_stopCh : chan;
  hsq_dc : string;
  hsq_filters : list string;
  hsq_name : string;
  hsq_near : string;
  hsq_tag : string;
  hsq_connect : bool;
  hsq_opts : QueryOptions
}.

(** What [Fetch] returns: data, metadata and error, each possibly nil. *)
Definition fetched (A : Type) : Type :=
  (option A * option ResponseMetadata * option error)%type.

(** * Key-value list queries *)

(** [NewKVListQuery] *)
Definition NewKVListQuery (s : string) : KVListQuery + error :=
  if negb (bool_decide (s = EmptyString)) && negb (MatchString KVListQueryRe s)
  then inr (InvalidFormat "kv.list" s)
  else
    let m := regexpMatch KVListQueryRe s in
    inl {| kvq_stopCh := make_chan 1;
           kvq_dc := map_index m "dc";
           kvq_prefix := map_index m "prefix";
           kvq_opts := zero_QueryOptions |}.

(** [KVListQuery.String] *)
Definition KVListQuery_String (d : KVListQuery) : string :=
  let prefix := kvq_prefix d in
  let prefix := if decide (kvq_dc d = EmptyString) then prefix
                else prefix +:+ "@" +:+ kvq_dc d in
  "kv.list(" +:+ prefix +:+ ")".

(** The body of the loop over the raw pairs. *)
Definition KVListQuery_pair (d : KVListQuery) (pair : api_KVPair) : KeyPair :=
  let key := TrimPrefix (kv_Key pair) (kvq_prefix d) in
  let key := TrimLeft key "/" in
  {| Path := kv_Key pair;
     Key := key;
     Value := kv_Value pair;
     CreateIndex := kv_CreateIndex pair;
     ModifyIndex := kv_ModifyIndex pair;
     LockIndex := kv_LockIndex pair;
     Flags := kv_Flags pair;
     Session := kv_Session pair |}.

(** [for _, pair := range list { pairs = append(pairs, ...) }] *)
Fixpoint KVListQuery_pairs (d : KVListQuery) (raw : list api_KVPair)
    (pairs : list KeyPair) : list KeyPair :=
  match raw with
  | [] => pairs
  | kv :: rest => KVListQuery_pairs d rest (pairs ++ [KVListQuery_pair d kv])
  end.

(** The transport call that a Fetch of [d] makes when it is not stopped. *)
Definition KVListQuery_call (d : KVListQuery) : call :=
  CallKVList (kvq_prefix d)
    (Merge (kvq_opts d) (mkQueryOptions false (kvq_dc d) EmptyString 0%N 0%Z)).

(** [KVListQuery.Fetch]: the result, the instance afterwards and the
    trace of transport calls afterwards. *)
Definition KVListQuery_Fetch (d : KVListQuery) (clients : Clients) (tr : trace)
    : fetched (list KeyPair) * KVListQuery * trace :=
  let '(stopped, ch) := select_recv_default (kvq_stopCh d) in
  let d := {| kvq_stopCh := ch; kvq_dc := kvq_dc d;
              kvq_prefix := kvq_prefix d; kvq_opts := kvq_opts d |} in
  if stopped then ((None, None, Some ErrStopped), d, tr)
  else
    let opts := Merge (kvq_opts d)
                  (mkQueryOptions false (kvq_dc d) EmptyString 0%N 0%Z) in
    let tr := (tr ++ [KVListQuery_call d])%list in
    match KV_List clients (kvq_prefix d) opts with
    | inr err => ((None, None, Some (Wrap err (KVListQuery_String d))), d, tr)
    | inl (raw, qm) =>
        let pairs := KVListQuery_pairs d raw [] in
        let rm := {| LastIndex := qm_LastIndex qm;
                     LastContact := qm_LastContact qm |} in
        ((Some pairs, Some rm, None), d, tr)
    end.

(** [KVListQuery.CanShare] *)
Definition KVListQuery_CanShare (d : KVListQuery) : bool := true.

(** [KVListQuery.Stop] *)
Definition KVListQuery_Stop (d : KVListQuery) : outcome KVListQuery :=
  ch ← close (kvq_stopCh d);
  mret {| kvq_stopCh := ch; kvq_dc := kvq_dc d;
          kvq_prefix := kvq_prefix d; kvq_opts := kvq_opts d |}.

(** [KVListQuery.SetOptions] *)
Definition KVListQuery_SetOptions (d : KVListQuery) (opts : QueryOptions) : KVListQuery :=
  {| kvq_stopCh := kvq_stopCh d; kvq_dc := kvq_dc d;
     kvq_prefix := kvq_prefix d; kvq_opts := opts |}.

(** * Health-service queries *)

(** The loop of [healthServiceQuery] over the pieces of the filter
    segment: [filters] holds the filters accepted so far. *)
Fixpoint healthServiceQuery_filters (s : string) (split : list string)
    (filters : list string) : list string + error :=
  match split with
  | [] => inl filters
  | f :: rest =>
      let f := TrimSpace f in
      if decide (f = HealthAny ∨ f = HealthPassing ∨ f = HealthWarning
                 ∨ f = HealthCritical ∨ f = HealthMaint)
      then healthServiceQuery_filters s rest (filters ++ [f])
      else if decide (f = EmptyString)
      then healthServiceQuery_filters s rest filters
      else inr (InvalidFilter "health.service" f s)
  end.

(** [healthServiceQuery] *)
Definition healthServiceQuery (s : string) (connect : bool) : HealthServiceQuery + error :=
  if negb (MatchString HealthServiceQueryRe s)
  then inr (InvalidFormat "health.service" s)
  else
    let m := regexpMatch HealthServiceQueryRe s in
    let filter := map_index m "filter" in
    let parsed :=
      if decide (filter ≠ EmptyString) then
        match healthServiceQuery_filters s (Split filter ",") [] with
        | inl filters => inl (sort_Strings filters)
        | inr err => inr err
        end
      else inl [HealthPassing] in
    match parsed with
    | inr err => inr err
    | inl filters =>
        inl {| hsq_stopCh := make_chan 1;
               hsq_dc := map_index m "dc";
               hsq_filters := filters;
               hsq_name := map_index m "name";
               hsq_near := map_index m "near";
               hsq_tag := map_index m "tag";
               hsq_connect := connect;
               hsq_opts := zero_QueryOptions |}
    end.

(** [NewHealthServiceQuery] *)
Definition NewHealthServiceQuery (s : string) : HealthServiceQuery + error :=
  healthServiceQuery s false.

(** [NewHealthConnectQuery] *)
Definition NewHealthConnectQuery (s : string) : HealthServiceQuery + error :=
  healthServiceQuery s true.

(** [HealthServiceQuery.String] *)
Definition HealthServiceQuery_String (d : HealthServiceQuery) : string :=
  let name := hsq_name d in
  let name := if decide (hsq_tag d ≠ EmptyString) then hsq_tag d +:+ "." +:+ name else name in
  let name := if decide (hsq_dc d ≠ EmptyString) then name +:+ "@" +:+ hsq_dc d else name in
  let name := if decide (hsq_near d ≠ EmptyString) then name +:+ "~" +:+ hsq_near d else name in
  let name := if decide (0 < length (hsq_filters d))
              then name +:+ "|" +:+ Join (hsq_filters d) "," else name in
  "health.service(" +:+ name +:+ ")".

(** [acceptStatus] *)
Fixpoint acceptStatus (filters : list string) (s : string) : bool :=
  match filters with
  | [] => false
  | status :: rest =>
      if bool_decide (status = s) || bool_decide (status = HealthAny) then true
      else acceptStatus rest s
  end.

(** [ByNodeThenID], a sortable slice of services. *)
Definition ByNodeThenID : Type := list HealthService.

(** Reading a slice element; an index out of range panics. *)
Definition index_slice {A : Type} (s : list A) (i : nat) : outcome A :=
  match s !! i with
  | Some x => Done x
  | None => Panic index_out_of_range
  end.

Definition ByNodeThenID_Len (s : ByNodeThenID) : nat := length s.

(** [s[i], s[j] = s[j], s[i]] *)
Definition ByNodeThenID_Swap (s : ByNodeThenID) (i j : nat) : outcome ByNodeThenID :=
  sj ← index_slice s j;
  si ← index_slice s i;
  mret (<[j := si]> (<[i := sj]> s)).

Definition ByNodeThenID_Less (s : ByNodeThenID) (i j : nat) : outcome bool :=
  si ← index_slice s i;
  sj ← index_slice s j;
  mret (if String.ltb (Node si) (Node sj) then true
        else if decide (Node si = Node sj) then String.leb (ID si) (ID sj)
        else false).

Global Instance ByNodeThenID_Interface : Interface ByNodeThenID := {|
  Len := ByNodeThenID_Len;
  Less := ByNodeThenID_Less;
  Swap := ByNodeThenID_Swap
|}.

(** Modelled from the spec: [deepCopyAndSortTags] is a helper of the
    package that is not among the sources; it copies the tag list and
    sorts the copy lexicographically. *)
Definition deepCopyAndSortTags (tags : list string) : list string :=
  sort_Strings tags.

(** The custom mapping of one of the entry's checks. *)
Definition HealthServiceQuery_check (c : api_HealthCheck) : HealthCheck :=
  {| hc_Node := c_Node c;
     hc_CheckID := c_CheckID c;
     hc_Name := c_Name c;
     hc_Status := c_Status c;
     hc_Notes := c_Notes c;
     hc_Output := c_Output c;
     hc_ServiceID := c_ServiceID c;
     hc_ServiceName := c_ServiceName c;
     hc_ServiceTags := c_ServiceTags c;
     hc_Type := c_Type c;
     hc_Namespace := c_Namespace c;
     hc_Definition := c_Definition c |}.

(** The record built for an entry that passes the filter. *)
Definition HealthServiceQuery_service (entry : api_ServiceEntry) : HealthService :=
  let status := AggregatedStatus (e_Checks entry) in
  let address := s_Address (e_Service entry) in
  let address := if decide (address = EmptyString) then n_Address (e_Node entry)
                 else address in
  let checks := map HealthServiceQuery_check (e_Checks entry) in
  {| Node := n_Node (e_Node entry);
     NodeID := n_ID (e_Node entry);
     NodeAddress := n_Address (e_Node entry);
     NodeDatacenter := n_Datacenter (e_Node entry);
     NodeTaggedAddresses := n_TaggedAddresses (e_Node entry);
     NodeMeta := n_Meta (e_Node entry);
     ServiceMeta := s_Meta (e_Service entry);
     Address := address;
     ID := s_ID (e_Service entry);
     Name := s_Service (e_Service entry);
     Tags := deepCopyAndSortTags (s_Tags (e_Service entry));
     Checks := checks;
     Status := status;
     Port := s_Port (e_Service entry);
     Weights := s_Weights (e_Service entry);
     Namespace := s_Namespace (e_Service entry) |}.

(** [for _, entry := range entries { ... }]: [acc] is the list built so
    far. *)
Fixpoint HealthServiceQuery_entries (d : HealthServiceQuery)
    (entries : list api_ServiceEntry) (acc : list HealthService) : list HealthService :=
  match entries with
  | [] => acc
  | entry :: rest =>
      let status := AggregatedStatus (e_Checks entry) in
      if negb (acceptStatus (hsq_filters d) status)
      then HealthServiceQuery_entries d rest acc
      else HealthServiceQuery_entries d rest (acc ++ [HealthServiceQuery_service entry])
  end.

Definition HealthServiceQuery_passingOnly (d : HealthServiceQuery) : bool :=
  bool_decide (length (hsq_filters d) = 1)
  && bool_decide (hsq_filters d !! 0 = Some HealthPassing).

(** The transport call that a Fetch of [d] makes when it is not stopped. *)
Definition HealthServiceQuery_call (d : HealthServiceQuery) : call :=
  (if hsq_connect d then CallHealthConnect else CallHealthService)
    (hsq_name d) (hsq_tag d) (HealthServiceQuery_passingOnly d)
    (Merge (hsq_opts d) (mkQueryOptions false (hsq_dc d) (hsq_near d) 0%N 0%Z)).

(** [nodes := clients.Consul().Health().Service], or [Connect] for a
    connect query. *)
Definition HealthServiceQuery_nodes (d : HealthServiceQuery) (clients : Clients)
    : string -> string -> bool -> QueryOptions -> response api_ServiceEntry :=
  if hsq_connect d then Health_Connect clients else Health_Service clients.

(** [HealthServiceQuery.Fetch].  The URL that the source assembles is only
    used by a trace statement that is commented out, and is left out. *)
Definition HealthServiceQuery_Fetch (d : HealthServiceQuery) (clients : Clients) (tr : trace)
    : outcome (fetched (list HealthService) * HealthServiceQuery * trace) :=
  let '(stopped, ch) := select_recv_default (hsq_stopCh d) in
  let d := {| hsq_stopCh := ch; hsq_dc := hsq_dc d; hsq_filters := hsq_filters d;
              hsq_name := hsq_name d; hsq_near := hsq_near d; hsq_tag := hsq_tag d;
              hsq_connect := hsq_connect d; hsq_opts := hsq_opts d |} in
  if stopped then Done ((None, None, Some ErrStopped), d, tr)
  else
    let opts := Merge (hsq_opts d)
                  (mkQueryOptions false (hsq_dc d) (hsq_near d) 0%N 0%Z) in
    let passingOnly := HealthServiceQuery_passingOnly d in
    let nodes := HealthServiceQuery_nodes d clients in
    let tr := (tr ++ [HealthServiceQuery_call d])%list in
    match nodes (hsq_name d) (hsq_tag d) passingOnly opts with
    | inr err => Done ((None, None, Some (Wrap err (HealthServiceQuery_String d))), d, tr)
    | inl (entries, qm) =>
        let services := HealthServiceQuery_entries d entries [] in
        services ← (if decide (hsq_near d = EmptyString)
                    then Stable (services : ByNodeThenID)
                    else Done services);
        let rm := {| LastIndex := qm_LastIndex qm;
                     LastContact := qm_LastContact qm |} in
        Done ((Some services, Some rm, None), d, tr)
    end.

(** [HealthServiceQuery.CanShare] *)
Definition HealthServiceQuery_CanShare (d : HealthServiceQuery) : bool := true.

(** [HealthServiceQuery.Stop] *)
Definition HealthServiceQuery_Stop (d : HealthServiceQuery) : outcome HealthServiceQuery :=
  ch ← close (hsq_stopCh d);
  mret {| hsq_stopCh := ch; hsq_dc := hsq_dc d; hsq_filters := hsq_filters d;
          hsq_name := hsq_name d; hsq_near := hsq_near d; hsq_tag := hsq_tag d;
          hsq_connect := hsq_connect d; hsq_opts := hsq_opts d |}.

(** [HealthServiceQuery.SetOptions] *)
Definition HealthServiceQuery_SetOptions (d : HealthServiceQuery) (opts : QueryOptions)
    : HealthServiceQuery :=
  {| hsq_stopCh := hsq_stopCh d; hsq_dc := hsq_dc d; hsq_filters := hsq_filters d;
     hsq_name := hsq_name d; hsq_near := hsq_near d; hsq_tag := hsq_tag d;
     hsq_connect := hsq_connect d; hsq_opts := opts |}.

(** * The dependency contract

    [isDependency] is the interface both query types implement; a value
    of it is one of the two, and a method call dispatches on which. *)
Inductive isDependency : Type :=
  | DepKVList (d : KVListQuery)
  | DepHealthService (d : HealthServiceQuery).

(** The [interface{}] that [Fetch] returns as data. *)
Inductive data : Type :=
  | KeyPairs (pairs : list KeyPair)
  | HealthServices (services : list HealthService).

Definition fetched_map {A B : Type} (f : A -> B) (r : fetched A) : fetched B :=
  let '(a, rm, err) := r in (f <$> a, rm, err).

Definition Fetch (d : isDependency) (clients : Clients) (tr : trace)
    : outcome (fetched data * isDependency * trace) :=
  match d with
  | DepKVList q =>
      let '(r, q', tr') := KVListQuery_Fetch q clients tr in
      Done (fetched_map KeyPairs r, DepKVList q', tr')
  | DepHealthService q =>
      '(r, q', tr') ← HealthServiceQuery_Fetch q clients tr;
      Done (fetched_map HealthServices r, DepHealthService q', tr')
  end.

Definition Stop (d : isDependency) : outcome isDependency :=
  match d with
  | DepKVList q => DepKVList <$> KVListQuery_Stop q
  | DepHealthService q => DepHealthService <$> HealthServiceQuery_Stop q
  end.

Definition SetOptions (d : isDependency) (opts : QueryOptions) : isDependency :=
  match d with
  | DepKVList q => DepKVList (KVListQuery_SetOptions q opts)
  | DepHealthService q => DepHealthService (HealthServiceQuery_SetOptions q opts)
  end.

Definition CanShare (d : isDependency) : bool :=
  match d with
  | DepKVList q => KVListQuery_CanShare q
  | DepHealthService q => HealthServiceQuery_CanShare q
  end.

Definition canonical (d : isDependency) : string :=
  match d with
  | DepKVList q => KVListQuery_String q
  | DepHealthService q => HealthServiceQuery_String q
  end.

Definition stopCh (d : isDependency) : chan :=
  match d with
  | DepKVList q => kvq_stopCh q
  | DepHealthService q => hsq_stopCh q
  end.

(** The transport call a Fetch of [d] makes when it is not stopped, and
    the transport's answer to it. *)
Definition transport_call (d : isDependency) : call :=
  match d with
  | DepKVList q => KVListQuery_call q
  | DepHealthService q => HealthServiceQuery_call q
  end.

Definition answer (clients : Clients) (c : call)
    : response api_KVPair + response api_ServiceEntry :=
  match c with
  | CallKVList prefix opts => inl (KV_List clients prefix opts)
  | CallHealthService name tag passingOnly opts =>
      inr (Health_Service clients name tag passingOnly opts)
  | CallHealthConnect name tag passingOnly opts =>
      inr (Health_Connect clients name tag passingOnly opts)
  end.

Definition answer_error (clients : Clients) (c : call) : option error :=
  match answer clients c with
  | inl (inr err) | inr (inr err) => Some err
  | _ => None
  end.

(** * Notions used in the statements *)

(** The fixed status vocabulary of the filter segment. *)
Definition vocabulary : list string :=
  [HealthAny; HealthPassing; HealthWarning; HealthCritical; HealthMaint].

(** A piece of the filter segment that the parser lets through: a word of
    the vocabulary, or nothing at all. *)
Definition admissible (f : string) : Prop := f = EmptyString ∨ f ∈ vocabulary.

(** An entry that the client-side filter keeps: its aggregated status is
    one of the filters, or the filters contain "any". *)
Definition accepted (filters : list string) (entry : api_ServiceEntry) : Prop :=
  AggregatedStatus (e_Checks entry) ∈ filters ∨ HealthAny ∈ filters.

Global Instance accepted_dec filters entry : Decision (accepted filters entry).
Proof. unfold accepted. apply _. Defined.

(** The transport's answer to the call a health-service Fetch makes. *)
Definition HealthServiceQuery_answer (d : HealthServiceQuery) (clients : Clients)
    : response api_ServiceEntry :=
  HealthServiceQuery_nodes d clients (hsq_name d) (hsq_tag d)
    (bool_decide (hsq_filters d = [HealthPassing]))
    (Merge (hsq_opts d) (mkQueryOptions false (hsq_dc d) (hsq_near d) 0%N 0%Z)).

(** The instance is not stopped: the receive on its stop channel would
    block, so Fetch goes on to the transport. *)
Definition active (c : chan) : Prop := select_recv_default c = (false, c).

(** The instances that a successful [Stop] leads to, whatever is called
    on them afterwards. *)
Inductive stopped : isDependency -> Prop :=
  | stopped_Stop d d' :
      Stop d = Done d' -> stopped d'
  | stopped_Fetch d clients tr r d' tr' :
      stopped d -> Fetch d clients tr = Done (r, d', tr') -> stopped d'
  | stopped_SetOptions d opts :
      stopped d -> stopped (SetOptions d opts).

(** A string made of separators only. *)
Fixpoint all_slashes (s : string) : Prop :=
  match s with
  | EmptyString => True
  | String c s' => c = "/"%char ∧ all_slashes s'
  end.

Definition starts_with_slash (s : string) : Prop :=
  match s with
  | String c _ => c = "/"%char
  | EmptyString => False
  end.

(** The order the health services are meant to be sorted in: by node
    name, then by service id. *)
Definition node_then_id_lt (x y : HealthService) : Prop :=
  String.ltb (Node x) (Node y) = true
  ∨ (Node x = Node y ∧ String.ltb (ID x) (ID y) = true).

(** A [sort.Interface] whose methods work on every index within the
    length, and whose [Swap] keeps the length and moves along [R]. *)
Class LawfulInterface (T : Type) `{Interface T} (R : relation T) : Prop := {
  lawful_preorder :: PreOrder R;
  Less_in_range data i j :
    i < Len data -> j < Len data -> ∃ b, Less data i j = Done b;
  Swap_in_range data i j :
    i < Len data -> j < Len data ->
    ∃ data', Swap data i j = Done data' ∧ Len data' = Len data ∧ R data data'
}.

(** A step of the sort went through: it returned, kept the length and
    moved along [R]. *)
Definition kept {T : Type} `{Interface T} (R : relation T) (data : T) (m : outcome T) : Prop :=
  ∃ data', m = Done data' ∧ Len data' = Len data ∧ R data data'.

(** * Sample inputs *)

Definition sample_meta : QueryMeta := mkQueryMeta 7 0.

Definition sample_entry (node id : string) (port : Z) (address : string)
    : api_ServiceEntry :=
  {| e_Node := mk_api_Node "7f3a" node "10.0.0.1" "dc1" ∅ ∅;
     e_Service := mk_api_AgentService id "web" ["v2"; "blue"] ∅ port address
                    (mk_api_AgentWeights 1 1) "";
     e_Checks := [] |}.

Definition sample_pair : api_KVPair :=
  mk_api_KVPair "app/config/timeout" 11 12 0 0 "30" "".

Definition unreachable : error := TransportError "connection refused".

(** A transport that answers every health call with [entries] and every
    key-value call with [raw]. *)
Definition sample_clients (raw : list api_KVPair) (entries : list api_ServiceEntry)
    : Clients :=
  {| KV_List := fun _ _ => inl (raw, sample_meta);
     Health_Service := fun _ _ _ _ => inl (entries, sample_meta);
     Health_Connect := fun _ _ _ _ => inl (entries, sample_meta) |}.

(** A transport that fails every call. *)
Definition failing_clients : Clients :=
  {| KV_List := fun _ _ => inr unreachable;
     Health_Service := fun _ _ _ _ => inr unreachable;
     Health_Connect := fun _ _ _ _ => inr unreachable |}.

(** The instances that the constructors build for ["app/config"] and for
    ["web|passing,warning"]. *)
Definition sample_kv : KVListQuery :=
  mkKVListQuery (make_chan 1) "" "app/config" zero_QueryOptions.

Definition sample_health : HealthServiceQuery :=
  mkHealthServiceQuery (make_chan 1) "" ["passing"; "warning"] "web" "" "" false
    zero_QueryOptions.

(** Two entries that tie on node name and service id. *)
Definition tie_first : api_ServiceEntry := sample_entry "node-a" "web-1" 8080 "".
Definition tie_second : api_ServiceEntry := sample_entry "node-a" "web-1" 9090 "".

(** * Notions used in the further statements *)

(** The order the comparator implements: by node name, then by service
    id, ties included. *)
Definition node_then_id_le (x y : HealthService) : Prop :=
  String.ltb (Node x) (Node y) = true
  ∨ (Node x = Node y ∧ String.leb (ID x) (ID y) = true).

Global Instance node_then_id_le_dec x y : Decision (node_then_id_le x y).
Proof. unfold node_then_id_le. apply _. Defined.

(** [FakeDepRetry], a fake dependency of the tests: its [Fetch] fails on
    the first call and succeeds on the later ones.  The mutex only guards
    [retried] and the sleep has no effect on the result; the data is the
    string it returns and the error the message of its [fmt.Errorf]. *)
Record FakeDepRetry : Type := mkFakeDepRetry {
  fdr_Name : string;
  fdr_retried : bool
}.

Definition FakeDepRetry_Fetch (d : FakeDepRetry)
    : (option string * option ResponseMetadata * option string) * FakeDepRetry :=
  if fdr_retried d then
    ((Some "this is some data", Some (mkResponseMetadata 1 0), None), d)
  else
    ((None, None, Some "failed to contact server (try again)"),
     mkFakeDepRetry (fdr_Name d) true).

(** [n] calls of [Fetch] in a row: the results, oldest first, and the
    instance afterwards. *)
Fixpoint FakeDepRetry_Fetches (n : nat) (d : FakeDepRetry)
    : list (option string * option ResponseMetadata * option string) * FakeDepRetry :=
  match n with
  | 0 => ([], d)
  | S n' =>
      let '(r, d') := FakeDepRetry_Fetch d in
      let '(rs, d'') := FakeDepRetry_Fetches n' d' in
      (r :: rs, d'')
  end.

(** The slice is in ascending order between the indices [a] and [b]. *)
Definition sorted_on {A : Type} `{!Inhabited A} (le : A -> A -> bool)
    (a b : nat) (s : list A) : Prop :=
  ∀ i j, a <= i -> i <= j -> j < b -> le (s !!! i) (s !!! j) = true.

(** [s'] is [s] with the elements between [a] and [b] moved around among
    themselves. *)
Definition moved {A : Type} `{!Inhabited A} (a b : nat) (s s' : list A) : Prop :=
  length s' = length s
  ∧ (∀ k, k < a ∨ b <= k -> s' !!! k = s !!! k)
  ∧ (∀ k, a <= k < b -> ∃ k', a <= k' < b ∧ s' !!! k = s !!! k').

(** [m] returned a slice that is [s] with the elements between [a] and
    [b] moved around, and that satisfies [P]. *)
Definition moves {A : Type} `{!Inhabited A} (a b : nat) (s : list A)
    (m : outcome (list A)) (P : list A -> Prop) : Prop :=
  ∃ s', m = Done s' ∧ moved a b s s' ∧ P s'.

(** [s'] is [s] with its elements rearranged: the element at [k] of [s']
    is the one at [pi k] of [s]. *)
Definition rearranged {A : Type} `{!Inhabited A} (pi : nat -> nat) (s s' : list A) : Prop :=
  length s' = length s ∧ ∀ k, s' !!! k = s !!! pi k.

(** [m] returned [s] rearranged by [pi]. *)
Definition rearranges {A : Type} `{!Inhabited A} (pi : nat -> nat) (s : list A)
    (m : outcome (list A)) : Prop :=
  ∃ s', m = Done s' ∧ rearranged pi s s'.

(** Between [a] and [b], everything before [mid] is at most everything
    from [mid] on. *)
Definition below {A : Type} `{!Inhabited A} (le : A -> A -> bool)
    (a mid b : nat) (s : list A) : Prop :=
  ∀ k1 k2, a <= k1 < mid -> mid <= k2 < b -> le (s !!! k1) (s !!! k2) = true.

(** The first [c] blocks of [bs] elements from [a] on, the last one cut
    at [n], are sorted runs. *)
Fixpoint runs {A : Type} `{!Inhabited A} (le : A -> A -> bool)
    (c bs a n : nat) (s : list A) : Prop :=
  match c with
  | 0 => True
  | S c' => sorted_on le a (Nat.min (a + bs) n) s ∧ runs le c' bs (a + bs) n s
  end.

(** Every block of [bs] elements from [a] on is a sorted run. *)
Definition all_runs {A : Type} `{!Inhabited A} (le : A -> A -> bool)
    (bs a n : nat) (s : list A) : Prop :=
  ∀ c, runs le c bs a n s.

Global Instance HealthService_inhabited : Inhabited HealthService :=
  populate (mkHealthService "" "" "" "" ∅ ∅ ∅ "" "" "" [] [] "" 0
              (mk_api_AgentWeights 0 0) "").

(** The comparator on two records, as [Less] computes it. *)
Definition node_then_id_leb (x y : HealthService) : bool :=
  bool_decide (node_then_id_le x y).

(** The key the services are sorted by. *)
Definition sort_key (entry : api_ServiceEntry) : string * string :=
  (n_Node (e_Node entry), s_ID (e_Service entry)).

(** Entries on two nodes, in both orders. *)
Definition entry_a : api_ServiceEntry := sample_entry "node-a" "a1" 80 "".
Definition entry_b : api_ServiceEntry := sample_entry "node-b" "b1" 80 "10.0.0.2".

(** The instance the parser builds for ["web|any"]. *)
Definition sample_any : HealthServiceQuery :=
  mkHealthServiceQuery (make_chan 1) "" ["any"] "web" "" "" false zero_QueryOptions.

(** The instance the parser builds for ["web|,"]: a filter segment
    without a word. *)
Definition sample_none : HealthServiceQuery :=
  mkHealthServiceQuery (make_chan 1) "" [] "web" "" "" false zero_QueryOptions.

(** * [sort.Stable] returns

    Every index the library passes to [Less] and [Swap] lies within the
    slice, and every loop ends: on a lawful interface the sort returns,
    with the data rearranged by swaps only. *)

Section sort_lemmas.
Context {T : Type} `{Interface T} (R : relation T) `{!LawfulInterface T R}.

Lemma kept_Done data : kept R data (Done data).
Proof. exists data. split_and!; reflexivity. Qed.

Lemma kept_bind data (m : outcome T) (f : T -> outcome T) :
  kept R data m ->
  (∀ data', Len data' = Len data -> kept R data' (f data')) ->
  kept R data (m ≫= f).
Proof.
  intros (d1 & -> & Hlen & HR) Hf.
  destruct (Hf d1 Hlen) as (d2 & Hd2 & Hlen2 & HR2).
  exists d2. split_and!; [exact Hd2 | congruence | by etrans].
Qed.

Lemma kept_Swap data i j :
  i < Len data -> j < Len data -> kept R data (Swap data i j).
Proof. intros. by apply Swap_in_range. Qed.

Lemma insertionSort_inner_kept j : ∀ data a,
  j < Len data -> kept R data (insertionSort_inner data a j).
Proof.
  induction j as [|j IH]; intros data a Hj; simpl; [apply kept_Done|].
  case_decide; [|apply kept_Done].
  destruct (Less_in_range data (S j) j) as [[] ->]; [lia..| |]; simpl.
  - apply kept_bind; [apply kept_Swap; lia|].
    intros data' Hlen. apply IH. lia.
  - apply kept_Done.
Qed.

Lemma insertionSort_outer_kept n : ∀ data a i,
  i + n <= Len data -> kept R data (insertionSort_outer data a i n).
Proof.
  induction n as [|n IH]; intros data a i Hi; simpl; [apply kept_Done|].
  apply kept_bind; [apply insertionSort_inner_kept; lia|].
  intros data' Hlen. apply IH. lia.
Qed.

Lemma insertionSort_kept data a b :
  b <= Len data -> kept R data (insertionSort data a b).
Proof.
  intros Hb. unfold insertionSort.
  destruct (decide (a + 1 <= b)).
  - apply insertionSort_outer_kept. lia.
  - replace (b - (a + 1)) with 0 by lia. apply kept_Done.
Qed.

Lemma swapRange_loop_kept n : ∀ data a b i,
  a + i + n <= Len data -> b + i + n <= Len data ->
  kept R data (swapRange_loop data a b i n).
Proof.
  induction n as [|n IH]; intros data a b i Ha Hb; simpl; [apply kept_Done|].
  apply kept_bind; [apply kept_Swap; lia|].
  intros data' Hlen. apply IH; lia.
Qed.

Lemma swapRange_kept data a b n :
  a + n <= Len data -> b + n <= Len data -> kept R data (swapRange data a b n).
Proof. intros. apply swapRange_loop_kept; lia. Qed.

Lemma rotate_loop_kept fuel : ∀ data m i j,
  0 < i -> 0 < j -> i <= m -> m + j <= Len data -> i + j <= fuel ->
  kept R data (rotate_loop fuel data m i j).
Proof.
  induction fuel as [|fuel IH]; intros data m i j Hi Hj Him Hmj Hfuel; [lia|].
  simpl. case_decide.
  { subst. apply swapRange_kept; lia. }
  case_decide.
  - apply kept_bind; [apply swapRange_kept; lia|].
    intros data' Hlen. apply IH; lia.
  - apply kept_bind; [apply swapRange_kept; lia|].
    intros data' Hlen. apply IH; lia.
Qed.

Lemma rotate_kept data a m b :
  a < m -> m < b -> b <= Len data -> kept R data (rotate data a m b).
Proof. intros. apply rotate_loop_kept; lia. Qed.

Local Arguments Nat.div : simpl never.

Lemma half_between i j : i < j -> i <= (i + j) / 2 ∧ (i + j) / 2 < j.
Proof.
  intros. pose proof (Nat.div_mod (i + j) 2).
  pose proof (Nat.mod_upper_bound (i + j) 2). lia.
Qed.

Lemma search_first_Done fuel : ∀ data a i j,
  a < Len data -> j <= Len data -> i <= j -> j - i <= fuel ->
  ∃ r, search_first fuel data a i j = Done r ∧ i <= r ∧ r <= j.
Proof.
  induction fuel as [|fuel IH]; intros data a i j Ha Hj Hij Hfuel; simpl.
  - rewrite decide_False by lia. exists i. split_and!; [done|lia..].
  - case_decide; [|exists i; split_and!; [done|lia..]].
    destruct (half_between i j) as [Hlo Hhi]; [done|].
    destruct (Less_in_range data ((i + j) / 2) a) as [[] ->]; [lia..| |]; simpl.
    + destruct (IH data a ((i + j) / 2 + 1) j) as (r & -> & ? & ?); [lia..|].
      exists r. split_and!; [done|lia..].
    + destruct (IH data a i ((i + j) / 2)) as (r & -> & ? & ?); [lia..|].
      exists r. split_and!; [done|lia..].
Qed.

Lemma search_last_Done fuel : ∀ data m i j,
  m < Len data -> j <= Len data -> i <= j -> j - i <= fuel ->
  ∃ r, search_last fuel data m i j = Done r ∧ i <= r ∧ r <= j.
Proof.
  induction fuel as [|fuel IH]; intros data m i j Hm Hj Hij Hfuel; simpl.
  - rewrite decide_False by lia. exists i. split_and!; [done|lia..].
  - case_decide; [|exists i; split_and!; [done|lia..]].
    destruct (half_between i j) as [Hlo Hhi]; [done|].
    destruct (Less_in_range data m ((i + j) / 2)) as [[] ->]; [lia..| |]; simpl.
    + destruct (IH data m i ((i + j) / 2)) as (r & -> & ? & ?); [lia..|].
      exists r. split_and!; [done|lia..].
    + destruct (IH data m ((i + j) / 2 + 1) j) as (r & -> & ? & ?); [lia..|].
      exists r. split_and!; [done|lia..].
Qed.

Lemma search_sym_Done fuel : ∀ data p start r,
  r <= Len data -> p - start < Len data -> start <= r -> r - start <= fuel ->
  ∃ s, search_sym fuel data p start r = Done s ∧ start <= s ∧ s <= r.
Proof.
  induction fuel as [|fuel IH]; intros data p start r Hr Hp Hsr Hfuel; simpl.
  - rewrite decide_False by lia. exists start. split_and!; [done|lia..].
  - case_decide; [|exists start; split_and!; [done|lia..]].
    destruct (half_between start r) as [Hlo Hhi]; [done|].
    destruct (Less_in_range data (p - (start + r) / 2) ((start + r) / 2))
      as [[] ->]; [lia..| |]; simpl.
    + destruct (IH data p start ((start + r) / 2)) as (s & -> & ? & ?); [lia..|].
      exists s. split_and!; [done|lia..].
    + destruct (IH data p ((start + r) / 2 + 1) r) as (s & -> & ? & ?); [lia..|].
      exists s. split_and!; [done|lia..].
Qed.

Lemma bubble_up_kept n : ∀ data k,
  k + n < Len data ∨ n = 0 -> kept R data (bubble_up data k n).
Proof.
  induction n as [|n IH]; intros data k Hk; simpl; [apply kept_Done|].
  apply kept_bind; [apply kept_Swap; lia|].
  intros data' Hlen. apply IH. lia.
Qed.

Lemma bubble_down_kept n : ∀ data k,
  k < Len data -> n <= k -> kept R data (bubble_down data k n).
Proof.
  induction n as [|n IH]; intros data k Hk Hn; simpl; [apply kept_Done|].
  apply kept_bind; [apply kept_Swap; lia|].
  intros data' Hlen. apply IH; lia.
Qed.

Lemma symMerge_kept fuel : ∀ data a m b,
  a < m -> m < b -> b <= Len data -> b - a <= fuel ->
  kept R data (symMerge fuel data a m b).
Proof.
  induction fuel as [|fuel IH]; intros data a m b Ham Hmb Hb Hfuel; [lia|].
  simpl. case_decide as Hleft.
  { destruct (search_first_Done (b - m) data a m b) as (i & -> & ? & ?); [lia..|].
    simpl. apply bubble_up_kept. lia. }
  case_decide as Hright.
  { destruct (search_last_Done (m - a) data m a m) as (i & -> & ? & ?); [lia..|].
    simpl. apply bubble_down_kept; lia. }
  assert (a + b <= 2 * ((a + b) / 2) + 1 ∧ 2 * ((a + b) / 2) <= a + b) as [Hmid Hmid'].
  { pose proof (Nat.div_mod (a + b) 2). pose proof (Nat.mod_upper_bound (a + b) 2). lia. }
  set (mid := (a + b) / 2) in *.
  case_decide as Hcase.
  - destruct (search_sym_Done (mid - (mid + m - b)) data (mid + m - 1) (mid + m - b) mid)
      as (start & -> & ? & ?); [lia..|].
    simpl. apply kept_bind.
    { case_decide; [apply rotate_kept; lia|apply kept_Done]. }
    intros data1 Hlen1. apply kept_bind.
    { case_decide; [apply IH; lia|apply kept_Done]. }
    intros data2 Hlen2.
    case_decide; [apply IH; lia|apply kept_Done].
  - destruct (search_sym_Done (m - a) data (mid + m - 1) a m)
      as (start & -> & ? & ?); [lia..|].
    simpl. apply kept_bind.
    { case_decide; [apply rotate_kept; lia|apply kept_Done]. }
    intros data1 Hlen1. apply kept_bind.
    { case_decide; [apply IH; lia|apply kept_Done]. }
    intros data2 Hlen2.
    case_decide; [apply IH; lia|apply kept_Done].
Qed.

Lemma stable_blocks_Done fuel blockSize n : ∀ data a,
  0 < blockSize -> n <= Len data -> n - a <= fuel ->
  ∃ data' a', stable_blocks fuel data blockSize a n = Done (data', a')
              ∧ Len data' = Len data ∧ R data data'.
Proof.
  induction fuel as [|fuel IH]; intros data a Hbs Hn Hfuel; simpl.
  - rewrite decide_False by lia. exists data, a. split_and!; reflexivity.
  - case_decide; [|exists data, a; split_and!; reflexivity].
    destruct (insertionSort_kept data a (a + blockSize)) as (d1 & -> & Hlen1 & HR1); [lia|].
    simpl. destruct (IH d1 (a + blockSize)) as (d2 & a' & -> & Hlen2 & HR2); [lia..|].
    exists d2, a'. split_and!; [done|congruence|by etrans].
Qed.

Lemma stable_pairs_Done fuel blockSize n : ∀ data a,
  0 < blockSize -> n <= Len data -> n - a <= fuel ->
  ∃ data' a', stable_pairs fuel data blockSize a n = Done (data', a')
              ∧ Len data' = Len data ∧ R data data'.
Proof.
  induction fuel as [|fuel IH]; intros data a Hbs Hn Hfuel; simpl.
  - rewrite decide_False by lia. exists data, a. split_and!; reflexivity.
  - case_decide; [|exists data, a; split_and!; reflexivity].
    destruct (symMerge_kept n data a (a + blockSize) (a + (blockSize + (blockSize + 0))))
      as (d1 & -> & Hlen1 & HR1); [lia..|].
    simpl. destruct (IH d1 (a + (blockSize + (blockSize + 0))))
      as (d2 & a' & -> & Hlen2 & HR2); [lia..|].
    exists d2, a'. split_and!; [done|congruence|by etrans].
Qed.

Lemma stable_rounds_kept fuel n : ∀ data blockSize,
  0 < blockSize -> n <= Len data -> n - blockSize <= fuel ->
  kept R data (stable_rounds fuel data blockSize n).
Proof.
  induction fuel as [|fuel IH]; intros data blockSize Hbs Hn Hfuel; simpl.
  - rewrite decide_False by lia. apply kept_Done.
  - case_decide; [|apply kept_Done].
    destruct (stable_pairs_Done n blockSize n data 0)
      as (d1 & a & -> & Hlen1 & HR1); [lia..|].
    simpl. apply kept_bind.
    { case_decide.
      - destruct (symMerge_kept n d1 a (a + blockSize) n)
          as (d2 & -> & Hlen2 & HR2); [lia..|].
        exists d2. split_and!; [done|congruence|by etrans].
      - exists d1. split_and!; done. }
    intros d2 Hlen2. apply IH; lia.
Qed.

Lemma stable_kept data n :
  n <= Len data -> kept R data (stable data n).
Proof.
  intros Hn. unfold stable.
  destruct (stable_blocks_Done n 20 n data 0) as (d1 & a & -> & Hlen1 & HR1); [lia..|].
  simpl.
  destruct (insertionSort_kept d1 a n) as (d2 & -> & Hlen2 & HR2); [lia|].
  simpl.
  destruct (stable_rounds_kept n n d2 20) as (d3 & -> & Hlen3 & HR3); [lia..|].
  exists d3. split_and!; [done|congruence|].
  transitivity d1; [done|]. by transitivity d2.
Qed.

(** [sort.Stable] returns on every slice, whatever [Less] answers. *)
Lemma Stable_kept data : kept R data (Stable data).
Proof. by apply stable_kept. Qed.
End sort_lemmas.

(** * Cancellation *)

(** Both constructors make the stop channel with [make(chan struct{}, 1)]:
    open, with nothing queued. *)
Lemma NewKVListQuery_stopCh s d :
  NewKVListQuery s = inl d -> kvq_stopCh d = Chan 1 0 false.
Proof.
  unfold NewKVListQuery. case_match; intros; simplify_eq. reflexivity.
Qed.

Lemma healthServiceQuery_stopCh s connect d :
  healthServiceQuery s connect = inl d -> hsq_stopCh d = Chan 1 0 false.
Proof.
  unfold healthServiceQuery. repeat case_match; intros; simplify_eq; reflexivity.
Qed.

Lemma close_Done c c' :
  close c = Done c' -> is_closed c = false ∧ is_closed c' = true.
Proof. destruct c as [|cap q []]; simpl; intros; simplify_eq; done. Qed.

Lemma close_closed c :
  is_closed c = true -> close c = Panic close_of_closed_channel.
Proof. destruct c as [|cap q []]; simpl; intros; simplify_eq; done. Qed.

Lemma select_closed c :
  is_closed c = true ->
  ∃ c', select_recv_default c = (true, c') ∧ is_closed c' = true.
Proof.
  destruct c as [|cap [|q] []]; simpl; intros; simplify_eq; eauto.
Qed.

Lemma open_active cap : active (Chan cap 0 false).
Proof. reflexivity. Qed.

Lemma Stop_Done d d' :
  Stop d = Done d' ->
  is_closed (stopCh d') = true ∧ canonical d' = canonical d.
Proof.
  destruct d as [q|q]; simpl.
  - unfold KVListQuery_Stop. destruct (close (kvq_stopCh q)) as [c|] eqn:Hc; simpl; [|done].
    intros; simplify_eq. apply close_Done in Hc as [_ Hc]. done.
  - unfold HealthServiceQuery_Stop.
    destruct (close (hsq_stopCh q)) as [c|] eqn:Hc; simpl; [|done].
    intros; simplify_eq. apply close_Done in Hc as [_ Hc]. done.
Qed.

Lemma Stop_closed d :
  is_closed (stopCh d) = true -> Stop d = Panic close_of_closed_channel.
Proof.
  intros Hc. apply close_closed in Hc. destruct d as [q|q]; simpl in *.
  - unfold KVListQuery_Stop. by rewrite Hc.
  - unfold HealthServiceQuery_Stop. by rewrite Hc.
Qed.

Lemma Fetch_closed d clients tr :
  is_closed (stopCh d) = true ->
  ∃ d', Fetch d clients tr = Done ((None, None, Some ErrStopped), d', tr)
        ∧ is_closed (stopCh d') = true.
Proof.
  intros Hc. apply select_closed in Hc as (c' & Hsel & Hc').
  destruct d as [q|q]; simpl in *.
  - unfold KVListQuery_Fetch. rewrite Hsel. simpl. eexists. split; [reflexivity|done].
  - unfold HealthServiceQuery_Fetch. rewrite Hsel. simpl. eexists. split; [reflexivity|done].
Qed.

Lemma SetOptions_stopCh d opts : stopCh (SetOptions d opts) = stopCh d.
Proof. by destruct d. Qed.

Lemma stopped_closed d : stopped d -> is_closed (stopCh d) = true.
Proof.
  induction 1 as [d d' HStop|d clients tr r d' tr' _ IH HFetch|d opts _ IH].
  - by apply Stop_Done in HStop as [? _].
  - destruct (Fetch_closed d clients tr IH) as (d'' & Heq & Hc).
    rewrite Heq in HFetch. by simplify_eq.
  - by rewrite SetOptions_stopCh.
Qed.

(** C1, as amended.  On an instance whose stop channel is open, as the
    constructors make it, [Stop] returns and leaves the channel closed and
    the canonical string as it was; it is not idempotent: a second [Stop]
    on the instance panics with "close of closed channel". *)
Theorem Stop_twice_panics (d : isDependency) (cap q : nat) :
  stopCh d = Chan cap q false ->
  ∃ d1, Stop d = Done d1
        ∧ stopCh d1 = Chan cap q true
        ∧ canonical d1 = canonical d
        ∧ Stop d1 = Panic close_of_closed_channel.
Proof.
  intros Hch. destruct d as [k|h]; simpl in *.
  - unfold KVListQuery_Stop. rewrite Hch. simpl. eexists. split_and!; try reflexivity.
  - unfold HealthServiceQuery_Stop. rewrite Hch. simpl. eexists. split_and!; try reflexivity.
Qed.

(** C2.  On an instance that [Stop] has been called on, whatever was
    called on it since, [Fetch] returns no data, no metadata and
    [ErrStopped], and leaves the trace of transport calls as it was. *)
Theorem Fetch_after_Stop (d : isDependency) (clients : Clients) (tr : trace) :
  stopped d ->
  ∃ d', Fetch d clients tr = Done ((None, None, Some ErrStopped), d', tr)
        ∧ stopped d'.
Proof.
  intros Hs. destruct (Fetch_closed d clients tr (stopped_closed d Hs)) as (d' & Heq & _).
  exists d'. split; [exact Heq|]. by eapply stopped_Fetch.
Qed.

(** C9.  When the transport fails, [Fetch] returns no data, no metadata
    and the transport's error wrapped with the canonical string of the
    dependency; the transport was called once. *)
Theorem Fetch_transport_error (d : isDependency) (clients : Clients) (tr : trace)
    (err : error) :
  active (stopCh d) ->
  answer_error clients (transport_call d) = Some err ->
  Fetch d clients tr
    = Done ((None, None, Some (Wrap err (canonical d))), d, (tr ++ [transport_call d])%list)
  ∧ Cause (Wrap err (canonical d)) = Cause err.
Proof.
  intros Hact Herr. split; [|reflexivity].
  destruct d as [q|q]; simpl in *.
  - unfold KVListQuery_Fetch. rewrite Hact. destruct q as [ch dc prefix opts]; simpl in *.
    unfold answer_error, KVListQuery_call in Herr. simpl in Herr.
    destruct (KV_List clients prefix _) as [[raw qm]|e]; simplify_eq. reflexivity.
  - unfold HealthServiceQuery_Fetch. rewrite Hact.
    destruct q as [ch dc filters name near tag connect opts]; simpl in *.
    unfold answer_error, HealthServiceQuery_call in Herr. simpl in Herr.
    unfold HealthServiceQuery_nodes, HealthServiceQuery_call. simpl.
    destruct connect; simpl in *.
    + destruct (Health_Connect clients name tag _ _) as [[raw qm]|e]; simplify_eq. reflexivity.
    + destruct (Health_Service clients name tag _ _) as [[raw qm]|e]; simplify_eq. reflexivity.
Qed.

(** * The comparator *)

Lemma String_compare_refl s : String.compare s s = Eq.
Proof.
  induction s as [|c s IH]; simpl; [done|].
  unfold Ascii.compare. by rewrite N.compare_refl.
Qed.

Lemma String_ltb_irrefl s : String.ltb s s = false.
Proof. unfold String.ltb. by rewrite String_compare_refl. Qed.

Lemma String_leb_refl s : String.leb s s = true.
Proof. unfold String.leb. by rewrite String_compare_refl. Qed.

Lemma String_leb_ltb s t : String.leb s t = true <-> String.ltb s t = true ∨ s = t.
Proof.
  unfold String.leb, String.ltb.
  destruct (String.compare s t) eqn:Hc.
  - apply String.compare_eq_iff in Hc. split; [by right|done].
  - split; [by left|done].
  - split; [done|]. intros [?| ->]; [done|]. by rewrite String_compare_refl in Hc.
Qed.

(** [Less] is the intended order, by node name and then service id, or a
    tie on both. *)
Lemma ByNodeThenID_Less_spec (s : ByNodeThenID) (i j : nat) (x y : HealthService) :
  s !! i = Some x -> s !! j = Some y ->
  ∃ b, Less s i j = Done b
       ∧ (b = true <-> node_then_id_lt x y ∨ (Node x = Node y ∧ ID x = ID y)).
Proof.
  intros Hi Hj. unfold Less, ByNodeThenID_Interface, ByNodeThenID_Less, index_slice.
  unfold ByNodeThenID in *. rewrite Hi, Hj. simpl. eexists. split; [reflexivity|].
  unfold node_then_id_lt.
  destruct (String.ltb (Node x) (Node y)) eqn:Hlt; [split; auto|].
  case_decide as Hnode.
  - rewrite String_leb_ltb. split.
    + intros [?|?]; auto.
    + intros [[?|[_ ?]]|[_ ?]]; auto. done.
  - split; [done|]. intros [[?|[? _]]|[? _]]; done.
Qed.

(** C10.  On two records with the same node name and the same service
    id, [Less] answers true in both argument orders, and on a record
    against itself: it is not irreflexive, hence not a strict weak
    ordering. *)
Theorem ByNodeThenID_Less_ties (s : ByNodeThenID) (i j : nat) (x y : HealthService) :
  s !! i = Some x -> s !! j = Some y ->
  Node x = Node y -> ID x = ID y ->
  Less s i j = Done true ∧ Less s j i = Done true ∧ Less s i i = Done true.
Proof.
  intros Hi Hj HNode HID. unfold Less, ByNodeThenID_Interface, ByNodeThenID_Less, index_slice.
  unfold ByNodeThenID in *. rewrite Hi, Hj. simpl. rewrite HNode, HID.
  rewrite String_ltb_irrefl, String_leb_refl.
  rewrite decide_True by done. done.
Qed.

(** * Swaps rearrange *)

Lemma insert_head_Permutation {A} (l : list A) j x y :
  l !! j = Some y -> y :: <[j:=x]> l ≡ₚ x :: l.
Proof.
  revert j. induction l as [|z l IH]; intros [|j] Hj; simplify_eq/=.
  - apply Permutation_swap.
  - etrans; [apply Permutation_swap|].
    etrans; [apply Permutation_skip, (IH j Hj)|]. apply Permutation_swap.
Qed.

Lemma swap_Permutation {A} (l : list A) i j x y :
  l !! i = Some x -> l !! j = Some y -> <[j:=x]> (<[i:=y]> l) ≡ₚ l.
Proof.
  revert i j. induction l as [|z l IH]; intros [|i] [|j] Hi Hj; simplify_eq/=.
  - done.
  - by apply insert_head_Permutation.
  - by apply insert_head_Permutation.
  - by rewrite (IH i j).
Qed.

Global Instance ByNodeThenID_Lawful : LawfulInterface ByNodeThenID (≡ₚ).
Proof.
  split.
  - apply _.
  - intros s i j Hi Hj. simpl in *. unfold ByNodeThenID_Len, ByNodeThenID_Less, index_slice in *.
    destruct (lookup_lt_is_Some_2 s i Hi) as [x ->].
    destruct (lookup_lt_is_Some_2 s j Hj) as [y ->]. simpl. eauto.
  - intros s i j Hi Hj. simpl in *. unfold ByNodeThenID_Len, ByNodeThenID_Swap, index_slice in *.
    destruct (lookup_lt_is_Some_2 s i Hi) as [x Hx].
    destruct (lookup_lt_is_Some_2 s j Hj) as [y Hy]. rewrite Hx, Hy. simpl.
    eexists. split; [reflexivity|]. split.
    + unfold ByNodeThenID. by rewrite !length_insert.
    + symmetry. by apply swap_Permutation.
Qed.

Lemma ByNodeThenID_Stable_Permutation (s : ByNodeThenID) :
  ∃ s', Stable s = Done s' ∧ s' ≡ₚ s.
Proof.
  destruct (Stable_kept (≡ₚ) s) as (s' & Heq & _ & Hperm).
  exists s'. split; [exact Heq|by symmetry].
Qed.

(** * Health-service Fetch *)

Lemma acceptStatus_spec filters s :
  acceptStatus filters s = true <-> s ∈ filters ∨ HealthAny ∈ filters.
Proof.
  induction filters as [|f filters IH]; simpl.
  - split; [done|]. intros [H|H]; by apply elem_of_nil in H.
  - rewrite !elem_of_cons. destruct (bool_decide_reflect (f = s)); simpl.
    { split; [|done]. intros _. left. by left. }
    destruct (bool_decide_reflect (f = HealthAny)); simpl.
    { split; [|done]. intros _. right. by left. }
    rewrite IH. split; [intros [?|?]; auto|].
    intros [[?|?]|[?|?]]; auto; congruence.
Qed.

Lemma acceptStatus_accepted filters entry :
  acceptStatus filters (AggregatedStatus (e_Checks entry)) = true <-> accepted filters entry.
Proof. apply acceptStatus_spec. Qed.

Lemma HealthServiceQuery_entries_spec d entries : ∀ acc,
  HealthServiceQuery_entries d entries acc
  = (acc ++ map HealthServiceQuery_service (filter (accepted (hsq_filters d)) entries))%list.
Proof.
  induction entries as [|entry entries IH]; intros acc; simpl.
  - by rewrite app_nil_r.
  - rewrite filter_cons.
    destruct (acceptStatus (hsq_filters d) (AggregatedStatus (e_Checks entry))) eqn:Hacc; simpl.
    + apply acceptStatus_accepted in Hacc. rewrite decide_True by done.
      rewrite IH. simpl. by rewrite <- app_assoc.
    + rewrite decide_False; [apply IH|].
      intros Hacc'%acceptStatus_accepted. congruence.
Qed.

Lemma HealthServiceQuery_passingOnly_spec d :
  HealthServiceQuery_passingOnly d = bool_decide (hsq_filters d = [HealthPassing]).
Proof.
  unfold HealthServiceQuery_passingOnly.
  rewrite <- bool_decide_and. apply bool_decide_ext.
  destruct (hsq_filters d) as [|f [|g filters]]; simpl; split; intros; destruct_and?;
    simplify_eq; done.
Qed.

(** What an unstopped Fetch does once the transport has answered with
    entries. *)
Lemma HealthServiceQuery_Fetch_entries d clients tr entries qm :
  active (hsq_stopCh d) ->
  HealthServiceQuery_answer d clients = inl (entries, qm) ->
  ∃ services,
    HealthServiceQuery_Fetch d clients tr
    = Done ((Some services,
             Some {| LastIndex := qm_LastIndex qm; LastContact := qm_LastContact qm |},
             None), d, (tr ++ [HealthServiceQuery_call d])%list)
    ∧ services ≡ₚ map HealthServiceQuery_service (filter (accepted (hsq_filters d)) entries)
    ∧ (hsq_near d ≠ EmptyString ->
       services = map HealthServiceQuery_service (filter (accepted (hsq_filters d)) entries)).
Proof.
  intros Hact Hans. unfold HealthServiceQuery_Fetch. rewrite Hact.
  unfold HealthServiceQuery_answer in Hans. rewrite <- HealthServiceQuery_passingOnly_spec in Hans.
  destruct d as [ch dc filters name near tag connect opts]; simpl in *.
  rewrite Hans. rewrite HealthServiceQuery_entries_spec. simpl.
  case_decide as Hnear.
  - destruct (ByNodeThenID_Stable_Permutation
                (map HealthServiceQuery_service (filter (accepted filters) entries)))
      as (services & -> & Hperm).
    simpl. exists services. split_and!; [done|done|congruence].
  - simpl. eexists. split_and!; done.
Qed.

(** C7.  Fetch returns on every instance; each record of the list it
    returns was built from one of the transport's entries, and its
    address is the entry's service address, or the node address when the
    service address is empty. *)
Theorem HealthServiceQuery_Fetch_address (d : HealthServiceQuery) (clients : Clients)
    (tr : trace) :
  ∃ r d' tr',
    HealthServiceQuery_Fetch d clients tr = Done (r, d', tr')
    ∧ ∀ services h,
        r.1.1 = Some services -> h ∈ services ->
        ∃ entries qm entry,
          HealthServiceQuery_answer d clients = inl (entries, qm)
          ∧ entry ∈ entries
          ∧ h = HealthServiceQuery_service entry
          ∧ (s_Address (e_Service entry) ≠ EmptyString ->
             Address h = s_Address (e_Service entry))
          ∧ (s_Address (e_Service entry) = EmptyString ->
             Address h = n_Address (e_Node entry)).
Proof.
  destruct (select_recv_default (hsq_stopCh d)) as [[] ch] eqn:Hsel.
  { unfold HealthServiceQuery_Fetch. rewrite Hsel. do 3 eexists. split; [reflexivity|]. done. }
  assert (ch = hsq_stopCh d) as ->.
  { destruct (hsq_stopCh d) as [|cap [|q] []]; simpl in Hsel; by simplify_eq. }
  destruct (HealthServiceQuery_answer d clients) as [[entries qm]|err] eqn:Hans.
  - destruct (HealthServiceQuery_Fetch_entries d clients tr entries qm Hsel Hans)
      as (services & -> & Hperm & _).
    do 3 eexists. split; [reflexivity|]. simpl. intros ? h [= <-] Hh.
    rewrite Hperm in Hh. apply list_elem_of_fmap in Hh as (entry & -> & Hentry).
    apply list_elem_of_filter in Hentry as [_ Hentry].
    exists entries, qm, entry. split_and!; try done.
    + intros Hne. simpl. by rewrite decide_False.
    + intros He. simpl. by rewrite decide_True.
  - unfold HealthServiceQuery_Fetch. rewrite Hsel.
    unfold HealthServiceQuery_answer in Hans.
    rewrite <- HealthServiceQuery_passingOnly_spec in Hans.
    destruct d as [? dc filters name near tag connect opts]; simpl in *.
    rewrite Hans. do 3 eexists. split; [reflexivity|]. done.
Qed.

(** C8.  An unstopped Fetch calls the transport once, asking for the
    passing-only fast path exactly when the filters are exactly
    [passing]; of the entries that come back it keeps those whose
    aggregated status is one of the filters, or all of them when the
    filters contain "any". *)
Theorem HealthServiceQuery_Fetch_filter (d : HealthServiceQuery) (clients : Clients)
    (tr : trace) (entries : list api_ServiceEntry) (qm : QueryMeta) :
  active (hsq_stopCh d) ->
  HealthServiceQuery_answer d clients = inl (entries, qm) ->
  ∃ services rm,
    HealthServiceQuery_Fetch d clients tr
    = Done ((Some services, Some rm, None), d,
            (tr ++ [(if hsq_connect d then CallHealthConnect else CallHealthService)
                      (hsq_name d) (hsq_tag d)
                      (bool_decide (hsq_filters d = [HealthPassing]))
                      (Merge (hsq_opts d)
                         (mkQueryOptions false (hsq_dc d) (hsq_near d) 0%N 0%Z))])%list)
    ∧ services ≡ₚ map HealthServiceQuery_service (filter (accepted (hsq_filters d)) entries)
    ∧ ∀ status, acceptStatus (hsq_filters d) status = true <->
                status ∈ hsq_filters d ∨ HealthAny ∈ hsq_filters d.
Proof.
  intros Hact Hans.
  destruct (HealthServiceQuery_Fetch_entries d clients tr entries qm Hact Hans)
    as (services & Heq & Hperm & _).
  exists services. eexists. split_and!; [|exact Hperm|intros; apply acceptStatus_spec].
  rewrite Heq. unfold HealthServiceQuery_call.
  by rewrite HealthServiceQuery_passingOnly_spec.
Qed.

(** * Key-value list Fetch *)

Lemma app_String c s t : String c s +:+ t = String c (s +:+ t).
Proof. reflexivity. Qed.

Lemma HasPrefix_spec s p : HasPrefix s p = true <-> ∃ rest, s = p +:+ rest.
Proof.
  revert s. induction p as [|b p IH]; intros s; simpl.
  - split; [intros _; by exists s|done].
  - destruct s as [|a s]; simpl.
    + split; [done|]. intros [rest Hrest]. by rewrite app_String in Hrest.
    + unfold ascii_eqb. rewrite andb_true_iff, bool_decide_eq_true, IH.
      split.
      * intros [-> [rest ->]]. by exists rest.
      * intros [rest Hrest]. rewrite app_String in Hrest. simplify_eq. eauto.
Qed.

Lemma drop_string_app p rest : drop_string (String.length p) (p +:+ rest) = rest.
Proof.
  induction p as [|b p IH]; [by destruct rest|].
  rewrite app_String. simpl. exact IH.
Qed.

Lemma TrimPrefix_app p rest : TrimPrefix (p +:+ rest) p = rest.
Proof.
  unfold TrimPrefix. rewrite (proj2 (HasPrefix_spec (p +:+ rest) p)) by eauto.
  apply drop_string_app.
Qed.

Lemma TrimPrefix_no_prefix s p : (∀ rest, s ≠ p +:+ rest) -> TrimPrefix s p = s.
Proof.
  intros Hno. unfold TrimPrefix. destruct (HasPrefix s p) eqn:Hp; [|done].
  apply HasPrefix_spec in Hp as [rest ->]. by destruct (Hno rest).
Qed.

Lemma TrimLeft_slashes s :
  ∃ seps, all_slashes seps ∧ s = seps +:+ TrimLeft s "/"
          ∧ ¬ starts_with_slash (TrimLeft s "/").
Proof.
  induction s as [|c s (seps & Hseps & Hs & Hno)]; simpl.
  - exists EmptyString. split_and!; [done|done|tauto].
  - unfold ascii_eqb. rewrite orb_false_r. destruct (bool_decide_reflect (c = "/"%char)) as [->|Hc].
    + exists (String "/" seps). split_and!; [done| |done].
      rewrite app_String. by rewrite <- Hs.
    + exists EmptyString. split_and!; [done|done|]. simpl. done.
Qed.

Lemma KVListQuery_pairs_spec d raw : ∀ pairs,
  KVListQuery_pairs d raw pairs = (pairs ++ map (KVListQuery_pair d) raw)%list.
Proof.
  induction raw as [|kv raw IH]; intros pairs; simpl.
  - by rewrite app_nil_r.
  - rewrite IH. by rewrite <- app_assoc.
Qed.

(** C6.  An unstopped Fetch whose transport answers with raw pairs
    returns one record per pair, in the transport's order.  The record's
    path is the raw key; its key is the raw key without the queried
    prefix (when it starts with it) and without the separators that
    follow; value, indices, flags and session are the pair's. *)
Theorem KVListQuery_Fetch_pairs (d : KVListQuery) (clients : Clients) (tr : trace)
    (raw : list api_KVPair) (qm : QueryMeta) :
  active (kvq_stopCh d) ->
  KV_List clients (kvq_prefix d)
    (Merge (kvq_opts d) (mkQueryOptions false (kvq_dc d) EmptyString 0%N 0%Z))
    = inl (raw, qm) ->
  ∃ pairs,
    KVListQuery_Fetch d clients tr
    = ((Some pairs,
        Some {| LastIndex := qm_LastIndex qm; LastContact := qm_LastContact qm |},
        None), d, (tr ++ [KVListQuery_call d])%list)
    ∧ length pairs = length raw
    ∧ ∀ i kv, raw !! i = Some kv ->
        ∃ p seps,
          pairs !! i = Some p
          ∧ Path p = kv_Key kv
          ∧ Value p = kv_Value kv
          ∧ CreateIndex p = kv_CreateIndex kv
          ∧ ModifyIndex p = kv_ModifyIndex kv
          ∧ LockIndex p = kv_LockIndex kv
          ∧ Flags p = kv_Flags kv
          ∧ Session p = kv_Session kv
          ∧ all_slashes seps
          ∧ ¬ starts_with_slash (Key p)
          ∧ (∀ rest, kv_Key kv = kvq_prefix d +:+ rest -> rest = seps +:+ Key p)
          ∧ ((∀ rest, kv_Key kv ≠ kvq_prefix d +:+ rest) -> kv_Key kv = seps +:+ Key p).
Proof.
  intros Hact Hans. exists (map (KVListQuery_pair d) raw). split_and!.
  - unfold KVListQuery_Fetch. rewrite Hact.
    destruct d as [ch dc prefix opts]; simpl in *.
    rewrite Hans. by rewrite KVListQuery_pairs_spec.
  - by rewrite length_map.
  - intros i kv Hi.
    destruct (TrimLeft_slashes (TrimPrefix (kv_Key kv) (kvq_prefix d)))
      as (seps & Hseps & Hkey & Hno).
    exists (KVListQuery_pair d kv), seps. split_and!; try done.
    + change (map (KVListQuery_pair d) raw) with (KVListQuery_pair d <$> raw).
      by rewrite list_lookup_fmap, Hi.
    + intros rest Hrest. simpl. rewrite Hrest, TrimPrefix_app in Hkey |- *. done.
    + intros Hrest. simpl. rewrite (TrimPrefix_no_prefix _ _ Hrest) in Hkey |- *. done.
Qed.

(** * The identifier parser *)

Lemma Split_nonempty s sep : Split s sep ≠ [].
Proof.
  destruct s as [|c s]; simpl; [done|].
  destruct (ascii_eqb c sep); [done|]. by destruct (Split s sep).
Qed.

Lemma Split_Join s sep : Join (Split s sep) (String sep EmptyString) = s.
Proof.
  unfold Join. induction s as [|c s IH]; simpl; [done|].
  pose proof (Split_nonempty s sep) as Hne.
  destruct (Split s sep) as [|piece rest]; [done|].
  unfold ascii_eqb. destruct (bool_decide_reflect (c = sep)) as [->|Hc].
  - simpl in *. by rewrite IH.
  - rewrite <- IH. by destruct rest.
Qed.

Lemma vocabulary_spec f :
  f = HealthAny ∨ f = HealthPassing ∨ f = HealthWarning
  ∨ f = HealthCritical ∨ f = HealthMaint <-> f ∈ vocabulary.
Proof. unfold vocabulary. rewrite !elem_of_cons, elem_of_nil. tauto. Qed.

Lemma vocabulary_nonempty f : f ∈ vocabulary -> f ≠ EmptyString.
Proof.
  intros Hf%vocabulary_spec ->.
  destruct Hf as [?|[?|[?|[?|?]]]]; discriminate.
Qed.

Lemma healthServiceQuery_filters_admissible s split : ∀ filters,
  Forall admissible (TrimSpace <$> split) ->
  healthServiceQuery_filters s split filters
  = inl (filters ++ filter (λ f, f ≠ EmptyString) (TrimSpace <$> split))%list.
Proof.
  induction split as [|f0 split IH]; intros filters Hall; simpl.
  - by rewrite app_nil_r.
  - rewrite fmap_cons in Hall. apply Forall_cons in Hall as [Hf Hall].
    rewrite filter_cons. case_decide as Hvoc.
    + apply vocabulary_spec in Hvoc.
      rewrite decide_True by by apply vocabulary_nonempty.
      rewrite IH by done. by rewrite <- app_assoc.
    + destruct Hf as [Hf|Hf]; [|by apply vocabulary_spec in Hf].
      rewrite decide_True by done. rewrite decide_False by tauto. by apply IH.
Qed.

Lemma healthServiceQuery_filters_offending s pre f0 post : ∀ filters,
  Forall admissible (TrimSpace <$> pre) ->
  ¬ admissible (TrimSpace f0) ->
  healthServiceQuery_filters s (pre ++ f0 :: post) filters
  = inr (InvalidFilter "health.service" (TrimSpace f0) s).
Proof.
  induction pre as [|g pre IH]; intros filters Hall Hbad; simpl.
  - rewrite decide_False.
    + rewrite decide_False; [done|]. intros He. apply Hbad. by left.
    + intros Hvoc%vocabulary_spec. apply Hbad. by right.
  - rewrite fmap_cons in Hall. apply Forall_cons in Hall as [Hg Hall].
    case_decide as Hvoc; [by apply IH|].
    destruct Hg as [Hg|Hg]; [|by apply vocabulary_spec in Hg].
    rewrite decide_True by done. by apply IH.
Qed.

Lemma sort_Strings_Sorted l : Sorted String.le (sort_Strings l).
Proof. apply (Sorted_merge_sort String.le). Qed.

Lemma sort_Strings_Permutation l : sort_Strings l ≡ₚ l.
Proof. apply merge_sort_Permutation. Qed.

(** C5.  On an identifier that matches the pattern, the parser looks at
    the pieces of the filter segment between the commas, with the white
    space around them trimmed.  Without a filter segment the filters are
    [passing].  When every piece is empty or a word of the vocabulary,
    the filters are the non-empty pieces, sorted.  Otherwise the parser
    fails with an error that names the first piece that is neither. *)
Theorem healthServiceQuery_filter_segment (s : string) (connect : bool) :
  MatchString HealthServiceQueryRe s = true ->
  let segment := map_index (regexpMatch HealthServiceQueryRe s) "filter" in
  let pieces := TrimSpace <$> Split segment "," in
  Join (Split segment ",") "," = segment
  ∧ (segment = EmptyString ->
     ∃ d, healthServiceQuery s connect = inl d ∧ hsq_filters d = [HealthPassing])
  ∧ (segment ≠ EmptyString -> Forall admissible pieces ->
     ∃ d, healthServiceQuery s connect = inl d
          ∧ Sorted String.le (hsq_filters d)
          ∧ hsq_filters d ≡ₚ filter (λ f, f ≠ EmptyString) pieces
          ∧ Forall (λ f, f ∈ vocabulary) (hsq_filters d))
  ∧ (segment ≠ EmptyString ->
     ∀ pre f post,
       pieces = (pre ++ f :: post)%list -> Forall admissible pre -> ¬ admissible f ->
       healthServiceQuery s connect = inr (InvalidFilter "health.service" f s)).
Proof.
  intros Hmatch segment pieces. unfold healthServiceQuery. rewrite Hmatch. simpl.
  fold segment. split_and!.
  - apply Split_Join.
  - intros Hseg. rewrite decide_False by tauto. eexists. split; [reflexivity|done].
  - intros Hseg Hall. rewrite decide_True by done.
    rewrite (healthServiceQuery_filters_admissible s _ [] Hall). simpl.
    eexists. split; [reflexivity|]. simpl. fold pieces. split_and!.
    + apply sort_Strings_Sorted.
    + apply sort_Strings_Permutation.
    + rewrite sort_Strings_Permutation. apply Forall_forall.
      intros f [Hne Hf]%list_elem_of_filter.
      rewrite Forall_forall in Hall. destruct (Hall f Hf) as [?|?]; done.
  - intros Hseg pre f post Hpieces Hpre Hbad. rewrite decide_True by done.
    apply fmap_app_inv in Hpieces as (pre0 & rest0 & -> & Hrest & Hsplit).
    symmetry in Hrest. apply fmap_cons_inv in Hrest as (f0 & post0 & -> & -> & ->).
    rewrite Hsplit.
    by rewrite (healthServiceQuery_filters_offending s pre0 f0 post0 [] Hpre Hbad).
Qed.

(** C4, as amended.  ["svc@dc1"] parses to the name ["svc"], the
    datacenter ["dc1"] and the filters [passing]; the canonical string
    shows the filters, default or not. *)
Theorem NewHealthServiceQuery_svc_dc1 :
  ∃ d, NewHealthServiceQuery "svc@dc1" = inl d
       ∧ hsq_name d = "svc" ∧ hsq_dc d = "dc1" ∧ hsq_filters d = ["passing"]
       ∧ HealthServiceQuery_String d = "health.service(svc@dc1|passing)".
Proof. eexists. split; [vm_compute; reflexivity|]. vm_compute. done. Qed.

Lemma NewHealthServiceQuery_svc_dc1_String :
  ∃ d, NewHealthServiceQuery "svc@dc1" = inl d
       ∧ HealthServiceQuery_String d ≠ "health.service(svc@dc1)".
Proof. eexists. split; [vm_compute; reflexivity|]. vm_compute. done. Qed.

(** * The order of the health services *)

(** With a near-node hint the list is in the transport's order. *)
Lemma HealthServiceQuery_Fetch_near d clients tr entries qm :
  active (hsq_stopCh d) ->
  hsq_near d ≠ EmptyString ->
  HealthServiceQuery_answer d clients = inl (entries, qm) ->
  ∃ rm, HealthServiceQuery_Fetch d clients tr
        = Done ((Some (map HealthServiceQuery_service
                         (filter (accepted (hsq_filters d)) entries)),
                 Some rm, None), d, (tr ++ [HealthServiceQuery_call d])%list).
Proof.
  intros Hact Hnear Hans.
  destruct (HealthServiceQuery_Fetch_entries d clients tr entries qm Hact Hans)
    as (services & Heq & _ & Horder).
  rewrite Heq, (Horder Hnear). eauto.
Qed.

(** Scenario 4 of the specification: entries on distinct nodes come back
    ordered by node name. *)
Example HealthServiceQuery_Fetch_two_nodes :
  ∃ d r, NewHealthServiceQuery "web" = inl d
         ∧ HealthServiceQuery_Fetch d
             (sample_clients [] [sample_entry "node-b" "b1" 80 ""; sample_entry "node-a" "a1" 80 ""])
             [] = Done (Some r, Some (mkResponseMetadata 7 0), None, d, [HealthServiceQuery_call d])
         ∧ map (λ h, (Node h, ID h)) r = [("node-a", "a1"); ("node-b", "b1")].
Proof. do 2 eexists. split_and!; vm_compute; reflexivity. Qed.

(** C3, at an input where the code departs from it.  The transport
    returns two entries with the same node name and service id, and no
    near-node hint is given: Fetch returns the two records in the reverse
    of the transport's order, where a stable sort keeps tied records in
    their order. *)
Theorem HealthServiceQuery_Fetch_reverses_ties :
  ∃ d, NewHealthServiceQuery "web" = inl d
       ∧ hsq_near d = EmptyString
       ∧ Node (HealthServiceQuery_service tie_first) = Node (HealthServiceQuery_service tie_second)
       ∧ ID (HealthServiceQuery_service tie_first) = ID (HealthServiceQuery_service tie_second)
       ∧ Port (HealthServiceQuery_service tie_first) ≠ Port (HealthServiceQuery_service tie_second)
       ∧ HealthServiceQuery_Fetch d (sample_clients [] [tie_first; tie_second]) []
         = Done ((Some [HealthServiceQuery_service tie_second;
                        HealthServiceQuery_service tie_first],
                  Some (mkResponseMetadata 7 0), None), d, [HealthServiceQuery_call d]).
Proof.
  eexists. split_and!; [vm_compute; reflexivity|reflexivity..|discriminate|].
  vm_compute. reflexivity.
Qed.

(** * Instances of the statements *)

Lemma Stop_not_idempotent :
  ∃ kv hs,
    NewKVListQuery "app/config" = inl kv
    ∧ NewHealthServiceQuery "svc@dc1" = inl hs
    ∧ (∃ d1, Stop (DepKVList kv) = Done d1 ∧ Stop d1 = Panic close_of_closed_channel)
    ∧ (∃ d1, Stop (DepHealthService hs) = Done d1 ∧ Stop d1 = Panic close_of_closed_channel).
Proof.
  do 2 eexists. split_and!; [vm_compute; reflexivity..| |];
    eexists; split; vm_compute; reflexivity.
Qed.

Lemma Stop_twice_panics_sample :
  ∃ d1, Stop (DepHealthService sample_health) = Done d1
        ∧ stopCh d1 = Chan 1 0 true
        ∧ canonical d1 = canonical (DepHealthService sample_health)
        ∧ Stop d1 = Panic close_of_closed_channel.
Proof. apply (Stop_twice_panics (DepHealthService sample_health) 1 0). reflexivity. Defined.

Lemma Fetch_after_Stop_sample :
  ∃ d', Fetch (DepKVList (mkKVListQuery (Chan 1 0 true) "" "app/config" zero_QueryOptions))
          (sample_clients [sample_pair] []) []
        = Done ((None, None, Some ErrStopped), d', [])
        ∧ stopped d'.
Proof.
  apply Fetch_after_Stop. apply (stopped_Stop (DepKVList sample_kv)). reflexivity.
Defined.

Lemma healthServiceQuery_filter_segment_sample :
  let segment := map_index (regexpMatch HealthServiceQueryRe "web|warning,,passing") "filter" in
  let pieces := TrimSpace <$> Split segment "," in
  Join (Split segment ",") "," = segment
  ∧ (segment = EmptyString ->
     ∃ d, healthServiceQuery "web|warning,,passing" false = inl d
          ∧ hsq_filters d = [HealthPassing])
  ∧ (segment ≠ EmptyString -> Forall admissible pieces ->
     ∃ d, healthServiceQuery "web|warning,,passing" false = inl d
          ∧ Sorted String.le (hsq_filters d)
          ∧ hsq_filters d ≡ₚ filter (λ f, f ≠ EmptyString) pieces
          ∧ Forall (λ f, f ∈ vocabulary) (hsq_filters d))
  ∧ (segment ≠ EmptyString ->
     ∀ pre f post,
       pieces = (pre ++ f :: post)%list -> Forall admissible pre -> ¬ admissible f ->
       healthServiceQuery "web|warning,,passing" false
       = inr (InvalidFilter "health.service" f "web|warning,,passing")).
Proof. apply (healthServiceQuery_filter_segment "web|warning,,passing" false). reflexivity. Defined.

Lemma KVListQuery_Fetch_pairs_sample :
  ∃ pairs,
    KVListQuery_Fetch sample_kv (sample_clients [sample_pair] []) []
    = ((Some pairs, Some (mkResponseMetadata 7 0), None), sample_kv,
       ([] ++ [KVListQuery_call sample_kv])%list)
    ∧ length pairs = length [sample_pair]
    ∧ ∀ i kv, [sample_pair] !! i = Some kv ->
        ∃ p seps,
          pairs !! i = Some p
          ∧ Path p = kv_Key kv
          ∧ Value p = kv_Value kv
          ∧ CreateIndex p = kv_CreateIndex kv
          ∧ ModifyIndex p = kv_ModifyIndex kv
          ∧ LockIndex p = kv_LockIndex kv
          ∧ Flags p = kv_Flags kv
          ∧ Session p = kv_Session kv
          ∧ all_slashes seps
          ∧ ¬ starts_with_slash (Key p)
          ∧ (∀ rest, kv_Key kv = kvq_prefix sample_kv +:+ rest -> rest = seps +:+ Key p)
          ∧ ((∀ rest, kv_Key kv ≠ kvq_prefix sample_kv +:+ rest) -> kv_Key kv = seps +:+ Key p).
Proof.
  apply (KVListQuery_Fetch_pairs sample_kv (sample_clients [sample_pair] []) []
           [sample_pair] sample_meta); reflexivity.
Defined.

(** Scenario 3 of the specification. *)
Example KVListQuery_Fetch_timeout :
  (KVListQuery_Fetch sample_kv (sample_clients [sample_pair] []) []).1.1
  = (Some [mkKeyPair "app/config/timeout" "timeout" "30" 11 12 0 0 ""],
     Some (mkResponseMetadata 7 0), None).
Proof. reflexivity. Qed.

Lemma HealthServiceQuery_Fetch_filter_sample :
  ∃ services rm,
    HealthServiceQuery_Fetch sample_health (sample_clients [] [tie_first]) []
    = Done ((Some services, Some rm, None), sample_health,
            ([] ++ [CallHealthService "web" "" false
                      (Merge zero_QueryOptions (mkQueryOptions false "" "" 0%N 0%Z))])%list)
    ∧ services ≡ₚ map HealthServiceQuery_service
                    (filter (accepted ["passing"; "warning"]) [tie_first])
    ∧ ∀ status, acceptStatus ["passing"; "warning"] status = true <->
                status ∈ ["passing"; "warning"] ∨ HealthAny ∈ ["passing"; "warning"].
Proof.
  apply (HealthServiceQuery_Fetch_filter sample_health (sample_clients [] [tie_first]) []
           [tie_first] sample_meta); reflexivity.
Defined.

Lemma Fetch_transport_error_sample :
  Fetch (DepKVList sample_kv) failing_clients []
  = Done ((None, None, Some (Wrap unreachable "kv.list(app/config)")),
          DepKVList sample_kv, ([] ++ [transport_call (DepKVList sample_kv)])%list)
  ∧ Cause (Wrap unreachable "kv.list(app/config)") = Cause unreachable.
Proof.
  apply (Fetch_transport_error (DepKVList sample_kv) failing_clients [] unreachable);
    reflexivity.
Defined.

Lemma ByNodeThenID_Less_ties_sample :
  let s := [HealthServiceQuery_service tie_first; HealthServiceQuery_service tie_second] in
  Less s 0 1 = Done true ∧ Less s 1 0 = Done true ∧ Less s 0 0 = Done true.
Proof.
  apply (ByNodeThenID_Less_ties
           [HealthServiceQuery_service tie_first; HealthServiceQuery_service tie_second]
           0 1 (HealthServiceQuery_service tie_first) (HealthServiceQuery_service tie_second));
    reflexivity.
Defined.

(** * Further properties of the code *)

(** * The parser's invariants *)

Lemma healthServiceQuery_filters_vocabulary s split : ∀ filters result,
  healthServiceQuery_filters s split filters = inl result ->
  Forall (λ f, f ∈ vocabulary) filters ->
  Forall (λ f, f ∈ vocabulary) result.
Proof.
  induction split as [|f0 split IH]; intros filters result Heq Hall; simpl in Heq.
  - by simplify_eq.
  - case_decide as Hvoc.
    + apply (IH _ _ Heq). apply Forall_app. split; [done|].
      apply Forall_singleton. by apply vocabulary_spec.
    + case_decide; [by apply (IH _ _ Heq)|done].
Qed.

(** X1.  Every instance the health-service parser returns has its filters
    sorted and drawn from the status vocabulary, carries the connect flag
    it was asked for and zero query options, and is not stopped. *)
Theorem healthServiceQuery_instance (s : string) (connect : bool) (d : HealthServiceQuery) :
  healthServiceQuery s connect = inl d ->
  Sorted String.le (hsq_filters d)
  ∧ Forall (λ f, f ∈ vocabulary) (hsq_filters d)
  ∧ hsq_connect d = connect
  ∧ hsq_opts d = zero_QueryOptions
  ∧ active (hsq_stopCh d).
Proof.
  unfold healthServiceQuery. case_match; [done|].
  case_decide as Hseg.
  - destruct (healthServiceQuery_filters _ _ _) as [filters|err] eqn:Hfilters; [|done].
    intros; simplify_eq. simpl. split_and!; try done.
    + apply sort_Strings_Sorted.
    + rewrite sort_Strings_Permutation.
      by apply (healthServiceQuery_filters_vocabulary _ _ _ _ Hfilters).
  - intros; simplify_eq. simpl. split_and!; try done.
    + repeat constructor.
    + apply Forall_singleton. apply vocabulary_spec. auto.
Qed.

(** X2.  [NewHealthConnectQuery] and [NewHealthServiceQuery] fail on the
    same identifiers with the same error.  Where they succeed, the two
    instances differ in the connect flag only: they have the same
    canonical string, although a Fetch of the one calls the Connect
    endpoint and a Fetch of the other the Service endpoint. *)
Theorem NewHealthConnectQuery_NewHealthServiceQuery (s : string) :
  (∀ err, NewHealthConnectQuery s = inr err <-> NewHealthServiceQuery s = inr err)
  ∧ (∀ d, NewHealthServiceQuery s = inl d ->
       ∃ d', NewHealthConnectQuery s = inl d'
             ∧ hsq_connect d = false
             ∧ d' = mkHealthServiceQuery (hsq_stopCh d) (hsq_dc d) (hsq_filters d)
                      (hsq_name d) (hsq_near d) (hsq_tag d) true (hsq_opts d)
             ∧ HealthServiceQuery_String d' = HealthServiceQuery_String d
             ∧ HealthServiceQuery_call d ≠ HealthServiceQuery_call d').
Proof.
  unfold NewHealthConnectQuery, NewHealthServiceQuery, healthServiceQuery.
  case_match; [split; [done|intros; simplify_eq]|].
  case_decide.
  - destruct (healthServiceQuery_filters _ _ _) as [filters|e]; [|split; [done|intros; simplify_eq]].
    split; [split; intros; simplify_eq|]. intros d ?; simplify_eq.
    eexists. split_and!; try reflexivity. unfold HealthServiceQuery_call. simpl. done.
  - split; [split; intros; simplify_eq|]. intros d ?; simplify_eq.
    eexists. split_and!; try reflexivity. unfold HealthServiceQuery_call. simpl. done.
Qed.

(** * What Fetch keeps *)



Lemma filter_accepted_nil (entries : list api_ServiceEntry) :
  filter (accepted []) entries = [].
Proof.
  induction entries as [|entry entries IH]; [done|].
  rewrite filter_cons, decide_False; [exact IH|].
  unfold accepted. rewrite !elem_of_nil. tauto.
Qed.

Lemma filter_accepted_any filters (entries : list api_ServiceEntry) :
  HealthAny ∈ filters -> filter (accepted filters) entries = entries.
Proof.
  intros Hany. induction entries as [|entry entries IH]; [done|].
  rewrite filter_cons, decide_True by by right. by rewrite IH.
Qed.

(** X4.  With an empty filter list, which a filter segment of commas only
    parses to, an unstopped Fetch returns an empty list that is not nil,
    whatever entries the transport answers with. *)
Theorem HealthServiceQuery_Fetch_no_filters (d : HealthServiceQuery) (clients : Clients)
    (tr : trace) (entries : list api_ServiceEntry) (qm : QueryMeta) :
  active (hsq_stopCh d) ->
  hsq_filters d = [] ->
  HealthServiceQuery_answer d clients = inl (entries, qm) ->
  HealthServiceQuery_Fetch d clients tr
  = Done ((Some [],
           Some {| LastIndex := qm_LastIndex qm; LastContact := qm_LastContact qm |},
           None), d, (tr ++ [HealthServiceQuery_call d])%list).
Proof.
  intros Hact Hf Hans.
  destruct (HealthServiceQuery_Fetch_entries d clients tr entries qm Hact Hans)
    as (services & -> & Hperm & _).
  rewrite Hf, filter_accepted_nil in Hperm.
  apply Permutation_nil_r in Hperm. by rewrite Hperm.
Qed.

(** X5.  When the filters contain "any", an unstopped Fetch drops none of
    the transport's entries: the list is a permutation of their records,
    and with a near-node hint it is their records in order. *)
Theorem HealthServiceQuery_Fetch_any (d : HealthServiceQuery) (clients : Clients)
    (tr : trace) (entries : list api_ServiceEntry) (qm : QueryMeta) :
  active (hsq_stopCh d) ->
  HealthAny ∈ hsq_filters d ->
  HealthServiceQuery_answer d clients = inl (entries, qm) ->
  ∃ services,
    HealthServiceQuery_Fetch d clients tr
    = Done ((Some services,
             Some {| LastIndex := qm_LastIndex qm; LastContact := qm_LastContact qm |},
             None), d, (tr ++ [HealthServiceQuery_call d])%list)
    ∧ services ≡ₚ map HealthServiceQuery_service entries
    ∧ (hsq_near d ≠ EmptyString -> services = map HealthServiceQuery_service entries).
Proof.
  intros Hact Hany Hans.
  destruct (HealthServiceQuery_Fetch_entries d clients tr entries qm Hact Hans)
    as (services & -> & Hperm & Horder).
  rewrite (filter_accepted_any _ _ Hany) in Hperm, Horder. eauto.
Qed.








(** X7.  On an instance that [Stop] has been called on, whatever was
    called on it since, [Stop] panics. *)
Theorem Stop_after_stopped (d : isDependency) :
  stopped d -> Stop d = Panic close_of_closed_channel.
Proof. intros Hs. apply Stop_closed. by apply stopped_closed. Qed.

(** * The sortable slice *)

Lemma index_slice_Done {A} (s : list A) i x : s !! i = Some x -> index_slice s i = Done x.
Proof. unfold index_slice. by intros ->. Qed.

Lemma index_slice_Panic {A} (s : list A) i :
  length s <= i -> index_slice s i = Panic index_out_of_range.
Proof. intros Hi. unfold index_slice. by rewrite lookup_ge_None_2. Qed.

(** X8.  [Less] and [Swap] panic, with an index out of range, exactly
    when one of their two indices lies outside the slice. *)
Theorem ByNodeThenID_out_of_range (s : ByNodeThenID) (i j : nat) :
  (Less s i j = Panic index_out_of_range <-> ¬ (i < Len s ∧ j < Len s))
  ∧ (Swap s i j = Panic index_out_of_range <-> ¬ (i < Len s ∧ j < Len s)).
Proof.
  unfold Less, Swap, Len, ByNodeThenID_Interface, ByNodeThenID_Less, ByNodeThenID_Swap,
    ByNodeThenID_Len, ByNodeThenID in *.
  destruct (decide (i < length s)) as [Hi|Hi], (decide (j < length s)) as [Hj|Hj].
  - destruct (lookup_lt_is_Some_2 s i Hi) as [x Hx].
    destruct (lookup_lt_is_Some_2 s j Hj) as [y Hy].
    rewrite (index_slice_Done s i x Hx), (index_slice_Done s j y Hy). simpl.
    split; (split; [done|tauto]).
  - destruct (lookup_lt_is_Some_2 s i Hi) as [x Hx].
    rewrite (index_slice_Done s i x Hx), (index_slice_Panic s j) by lia. simpl.
    split; (split; [lia|done]).
  - rewrite (index_slice_Panic s i) by lia.
    destruct (lookup_lt_is_Some_2 s j Hj) as [y Hy].
    rewrite (index_slice_Done s j y Hy). simpl.
    split; (split; [lia|done]).
  - rewrite (index_slice_Panic s i), (index_slice_Panic s j) by lia. simpl.
    split; (split; [lia|done]).
Qed.

Lemma ByNodeThenID_Swap_Done (s : list HealthService) i j x y :
  s !! i = Some x -> s !! j = Some y ->
  ByNodeThenID_Swap s i j = Done (<[j:=x]> (<[i:=y]> s)).
Proof.
  intros Hi Hj. unfold ByNodeThenID_Swap.
  by rewrite (index_slice_Done s i x Hi), (index_slice_Done s j y Hj).
Qed.

Lemma swapped_lookup {A} (s : list A) i j x y k :
  s !! i = Some x -> s !! j = Some y ->
  <[j:=x]> (<[i:=y]> s) !! k
  = if decide (k = j) then Some x else if decide (k = i) then Some y else s !! k.
Proof.
  intros Hi Hj. apply lookup_lt_Some in Hi as Hi'. apply lookup_lt_Some in Hj as Hj'.
  case_decide as Hkj.
  - subst. apply list_lookup_insert_eq. by rewrite length_insert.
  - rewrite list_lookup_insert_ne by done. case_decide as Hki.
    + subst. by apply list_lookup_insert_eq.
    + by rewrite list_lookup_insert_ne.
Qed.

(** X9.  [Swap] exchanges the elements at its two indices and leaves the
    length and every other element as they were; the order of the two
    indices does not matter, and swapping again restores the slice. *)
Theorem ByNodeThenID_Swap_swaps (s s' : ByNodeThenID) (i j : nat) :
  Swap s i j = Done s' ->
  Len s' = Len s
  ∧ s' !! i = s !! j ∧ s' !! j = s !! i
  ∧ (∀ k, k ≠ i -> k ≠ j -> s' !! k = s !! k)
  ∧ Swap s j i = Done s'
  ∧ Swap s' i j = Done s.
Proof.
  unfold Swap, Len, ByNodeThenID_Interface, ByNodeThenID_Len, ByNodeThenID in *.
  intros Hswap.
  destruct (s !! i) as [x|] eqn:Hi; [|by unfold ByNodeThenID_Swap, index_slice in Hswap;
                                        rewrite Hi in Hswap; destruct (s !! j)].
  destruct (s !! j) as [y|] eqn:Hj; [|by unfold ByNodeThenID_Swap, index_slice in Hswap;
                                        rewrite Hj in Hswap].
  rewrite (ByNodeThenID_Swap_Done s i j x y Hi Hj) in Hswap. simplify_eq.
  assert (∀ k, <[j:=x]> (<[i:=y]> s) !! k
               = if decide (k = j) then Some x else if decide (k = i) then Some y else s !! k)
    as Hlook by (intros; by apply swapped_lookup).
  split_and!.
  - by rewrite !length_insert.
  - rewrite Hlook. repeat case_decide; congruence.
  - rewrite Hlook. repeat case_decide; congruence.
  - intros k ??. rewrite Hlook. repeat case_decide; congruence.
  - rewrite (ByNodeThenID_Swap_Done s j i y x Hj Hi). f_equal.
    apply list_eq. intros k. rewrite Hlook, (swapped_lookup s j i y x k Hj Hi).
    repeat case_decide; congruence.
  - rewrite (ByNodeThenID_Swap_Done _ i j y x).
    + f_equal. apply list_eq. intros k.
      rewrite (swapped_lookup _ i j y x k); rewrite ?Hlook; repeat case_decide; congruence.
    + rewrite Hlook. repeat case_decide; congruence.
    + rewrite Hlook. repeat case_decide; congruence.
Qed.

(** ** The comparator as an order *)

Lemma String_ltb_leb s t : String.ltb s t = true <-> String.leb s t = true ∧ s ≠ t.
Proof.
  rewrite String_leb_ltb. split.
  - intros Hlt. split; [by left|]. intros ->. by rewrite String_ltb_irrefl in Hlt.
  - intros [[?|?] ?]; done.
Qed.

Lemma String_leb_trans s t u :
  String.leb s t = true -> String.leb t u = true -> String.leb s u = true.
Proof.
  intros H1%Is_true_true H2%Is_true_true. apply Is_true_true.
  by apply (transitivity (R:=String.le) H1 H2).
Qed.

Lemma String_ltb_trans s t u :
  String.ltb s t = true -> String.ltb t u = true -> String.ltb s u = true.
Proof.
  rewrite !String_ltb_leb. intros [Hst Hne] [Htu Hne']. split.
  - by apply (String_leb_trans s t u).
  - intros ->. apply Hne. by apply String.leb_antisym.
Qed.

Lemma String_trichotomy s t : String.ltb s t = true ∨ s = t ∨ String.ltb t s = true.
Proof.
  destruct (decide (s = t)) as [|Hne]; [auto|].
  destruct (String.leb_total s t); [left|right; right]; apply String_ltb_leb; auto.
Qed.

Lemma ByNodeThenID_Less_le (s : list HealthService) i j x y :
  s !! i = Some x -> s !! j = Some y ->
  ByNodeThenID_Less s i j = Done (bool_decide (node_then_id_le x y)).
Proof.
  intros Hi Hj. unfold ByNodeThenID_Less.
  rewrite (index_slice_Done s i x Hi), (index_slice_Done s j y Hj). simpl. f_equal.
  destruct (String.ltb (Node x) (Node y)) eqn:Hlt.
  - symmetry. apply bool_decide_eq_true. by left.
  - case_decide as Hnode.
    + destruct (String.leb (ID x) (ID y)) eqn:Hle; symmetry.
      * apply bool_decide_eq_true. by right.
      * apply bool_decide_eq_false. intros [?|[_ ?]]; congruence.
    + symmetry. apply bool_decide_eq_false. intros [?|[? _]]; congruence.
Qed.

Lemma node_then_id_le_refl x : node_then_id_le x x.
Proof. right. split; [done|apply String_leb_refl]. Qed.

Lemma node_then_id_le_trans x y z :
  node_then_id_le x y -> node_then_id_le y z -> node_then_id_le x z.
Proof.
  intros [Hxy|[Hxy Hxy']] [Hyz|[Hyz Hyz']].
  - left. by apply (String_ltb_trans _ (Node y)).
  - left. by rewrite <- Hyz.
  - left. by rewrite Hxy.
  - right. split; [congruence|]. by apply (String_leb_trans _ (ID y)).
Qed.

Lemma node_then_id_le_total x y : node_then_id_le x y ∨ node_then_id_le y x.
Proof.
  destruct (String_trichotomy (Node x) (Node y)) as [?|[Heq|?]].
  - left. by left.
  - destruct (String.leb_total (ID x) (ID y)); [left|right]; right; done.
  - right. by left.
Qed.

Lemma node_then_id_le_antisym x y :
  node_then_id_le x y -> node_then_id_le y x -> Node x = Node y ∧ ID x = ID y.
Proof.
  intros [Hxy|[Hxy Hxy']] [Hyx|[Hyx Hyx']].
  - pose proof (String_ltb_trans _ _ _ Hxy Hyx) as H. by rewrite String_ltb_irrefl in H.
  - rewrite Hyx, String_ltb_irrefl in Hxy. done.
  - rewrite Hxy, String_ltb_irrefl in Hyx. done.
  - split; [done|]. by apply String.leb_antisym.
Qed.

(** X10.  On the indices of a slice [Less] is total and transitive: of
    two records it puts at least one before the other. *)
Theorem ByNodeThenID_Less_total_transitive (s : ByNodeThenID) (i j k : nat) :
  i < Len s -> j < Len s -> k < Len s ->
  (Less s i j = Done true ∨ Less s j i = Done true)
  ∧ (Less s i j = Done true -> Less s j k = Done true -> Less s i k = Done true).
Proof.
  unfold Less, Len, ByNodeThenID_Interface, ByNodeThenID_Len, ByNodeThenID in *.
  intros Hi Hj Hk.
  destruct (lookup_lt_is_Some_2 s i Hi) as [x Hx].
  destruct (lookup_lt_is_Some_2 s j Hj) as [y Hy].
  destruct (lookup_lt_is_Some_2 s k Hk) as [z Hz].
  rewrite (ByNodeThenID_Less_le s i j x y), (ByNodeThenID_Less_le s j i y x),
    (ByNodeThenID_Less_le s j k y z), (ByNodeThenID_Less_le s i k x z) by done.
  split.
  - destruct (node_then_id_le_total x y); [left|right]; f_equal; by apply bool_decide_eq_true.
  - intros [= Hxy%bool_decide_eq_true] [= Hyz%bool_decide_eq_true]. f_equal.
    apply bool_decide_eq_true. by apply (node_then_id_le_trans x y z).
Qed.

(** X11.  Two records that [Less] puts before each other have the same
    node name and the same service id: ties are the only case in which
    [Less] answers true in both orders. *)
Theorem ByNodeThenID_Less_both (s : ByNodeThenID) (i j : nat) (x y : HealthService) :
  s !! i = Some x -> s !! j = Some y ->
  Less s i j = Done true -> Less s j i = Done true ->
  Node x = Node y ∧ ID x = ID y.
Proof.
  unfold Less, ByNodeThenID_Interface, ByNodeThenID in *. intros Hx Hy.
  rewrite (ByNodeThenID_Less_le s i j x y), (ByNodeThenID_Less_le s j i y x) by done.
  intros [= Hxy%bool_decide_eq_true] [= Hyx%bool_decide_eq_true].
  by apply node_then_id_le_antisym.
Qed.

(** * The fake dependency that fails once *)

(** X12.  The first [Fetch] of a [FakeDepRetry] fails and sets [retried];
    every later one returns the data with index 1. *)
Theorem FakeDepRetry_fails_once (n : nat) (name : string) :
  FakeDepRetry_Fetches (S n) (mkFakeDepRetry name false)
  = ((None, None, Some "failed to contact server (try again)")
       :: replicate n (Some "this is some data", Some (mkResponseMetadata 1 0), None),
     mkFakeDepRetry name true).
Proof.
  assert (∀ m, FakeDepRetry_Fetches m (mkFakeDepRetry name true)
               = (replicate m (Some "this is some data", Some (mkResponseMetadata 1 0), None),
                  mkFakeDepRetry name true)) as Hlater.
  { induction m as [|m IH]; [done|]. simpl. by rewrite IH. }
  simpl. by rewrite Hlater.
Qed.

(** * [sort.Stable] sorts

    The sort is followed through its in-place moves for any comparator
    that is total and transitive, strict or not. *)

Section sorting.
Context {A : Type} `{!Inhabited A} (le : A -> A -> bool) `{!Interface (list A)}.
Hypothesis le_total : ∀ x y, le x y = true ∨ le y x = true.
Hypothesis le_trans : ∀ x y z, le x y = true -> le y z = true -> le x z = true.
Hypothesis Len_length : ∀ s : list A, Len s = length s.
Hypothesis Less_le : ∀ (s : list A) i j,
  i < length s -> j < length s -> Less s i j = Done (le (s !!! i) (s !!! j)).
Hypothesis Swap_insert : ∀ (s : list A) i j,
  i < length s -> j < length s ->
  Swap s i j = Done (<[j := s !!! i]> (<[i := s !!! j]> s)).

Local Arguments Nat.div : simpl never.

Lemma cmp_refl x : le x x = true.
Proof. by destruct (le_total x x). Qed.

Lemma cmp_flip x y : le x y = false -> le y x = true.
Proof. intros Hxy. destruct (le_total x y); congruence. Qed.

Lemma swapped_total (s : list A) i j k :
  i < length s -> j < length s ->
  <[j := s !!! i]> (<[i := s !!! j]> s) !!! k
  = if decide (k = j) then s !!! i else if decide (k = i) then s !!! j else s !!! k.
Proof.
  intros Hi Hj.
  pose proof (swapped_lookup s i j (s !!! i) (s !!! j) k
                (list_lookup_lookup_total_lt s i Hi) (list_lookup_lookup_total_lt s j Hj))
    as Hk.
  repeat case_decide; try (by apply list_lookup_total_correct).
  by rewrite (list_lookup_total_alt _ k), Hk, (list_lookup_total_alt s k).
Qed.

Lemma moved_refl a b (s : list A) : moved a b s s.
Proof. split_and!; [done|done|]. intros k Hk. by exists k. Qed.

Lemma moved_trans a b (s1 s2 s3 : list A) :
  moved a b s1 s2 -> moved a b s2 s3 -> moved a b s1 s3.
Proof.
  intros (Hlen1 & Hout1 & Hin1) (Hlen2 & Hout2 & Hin2). split_and!.
  - congruence.
  - intros k Hk. by rewrite Hout2, Hout1.
  - intros k Hk. destruct (Hin2 k Hk) as (k' & Hk' & ->).
    destruct (Hin1 k' Hk') as (k'' & Hk'' & ->). by exists k''.
Qed.

Lemma moved_mono a b a' b' (s s' : list A) :
  a' <= a -> b <= b' -> moved a b s s' -> moved a' b' s s'.
Proof.
  intros Ha Hb (Hlen & Hout & Hin). split_and!; [done|intros k Hk; apply Hout; lia|].
  intros k Hk. destruct (decide (a <= k < b)) as [Hk'|Hk'].
  - destruct (Hin k Hk') as (k' & ? & ->). exists k'. split; [lia|done].
  - exists k. split; [done|]. apply Hout. lia.
Qed.

Lemma moved_swap a b (s : list A) i j :
  a <= i < b -> a <= j < b -> b <= length s ->
  moved a b s (<[j := s !!! i]> (<[i := s !!! j]> s)).
Proof.
  intros Hi Hj Hb. split_and!.
  - by rewrite !length_insert.
  - intros k Hk. rewrite swapped_total by lia. repeat case_decide; [lia..|done].
  - intros k Hk. rewrite swapped_total by lia. repeat case_decide.
    + by exists i.
    + by exists j.
    + by exists k.
Qed.

Lemma moves_Done a b (s : list A) (P : list A -> Prop) : P s -> moves a b s (Done s) P.
Proof. intros HP. exists s. split_and!; [done|apply moved_refl|done]. Qed.

Lemma moves_bind a b (s : list A) m f (P Q : list A -> Prop) :
  moves a b s m P ->
  (∀ s', length s' = length s -> P s' -> moves a b s' (f s') Q) ->
  moves a b s (m ≫= f) Q.
Proof.
  intros (s1 & -> & Hm1 & HP) Hf.
  destruct (Hf s1 (proj1 Hm1) HP) as (s2 & Hs2 & Hm2 & HQ).
  exists s2. split_and!; [done| |done]. by apply (moved_trans _ _ _ s1).
Qed.

Lemma moves_mono a b a' b' (s : list A) m (P Q : list A -> Prop) :
  a' <= a -> b <= b' -> (∀ s', moved a b s s' -> P s' -> Q s') ->
  moves a b s m P -> moves a' b' s m Q.
Proof.
  intros Ha Hb HPQ (s' & -> & Hm & HP). exists s'.
  split_and!; [done|by apply (moved_mono a b)|by apply HPQ].
Qed.

Lemma sorted_on_moved a b c d (s s' : list A) :
  sorted_on le a b s -> moved c d s s' -> (b <= c ∨ d <= a) -> sorted_on le a b s'.
Proof.
  intros Hs (_ & Hout & _) Hdis i j Hi Hij Hj.
  rewrite !Hout by lia. by apply Hs.
Qed.

(** ** Insertion sort *)

(** The element at [j] sinks into the sorted run before it. *)
Lemma insertionSort_inner_sorts j : ∀ (s : list A) a J,
  a <= j -> j <= J -> J < length s ->
  (∀ i1 i2, a <= i1 -> i1 <= i2 -> i2 <= J -> i1 ≠ j -> i2 ≠ j ->
            le (s !!! i1) (s !!! i2) = true) ->
  (∀ k, j < k -> k <= J -> le (s !!! j) (s !!! k) = true) ->
  moves a (S J) s (insertionSort_inner s a j) (sorted_on le a (S J)).
Proof.
  induction j as [|j IH]; intros s a J Ha HJ Hlen Hrest Hright.
  - simpl. apply moves_Done. intros i1 i2 ? ? ?.
    destruct (decide (i1 = 0)) as [->|?], (decide (i2 = 0)) as [->|?].
    + apply cmp_refl.
    + apply Hright; lia.
    + lia.
    + apply Hrest; lia.
  - simpl. case_decide as Haj.
    + rewrite Less_le by lia. simpl.
      destruct (le (s !!! S j) (s !!! j)) eqn:Hle.
      * rewrite Swap_insert by lia. simpl.
        set (s' := <[j := s !!! S j]> (<[S j := s !!! j]> s)).
        assert (∀ k, s' !!! k = if decide (k = j) then s !!! S j
                                else if decide (k = S j) then s !!! j else s !!! k) as Hs'.
        { intros k. unfold s'. by rewrite swapped_total by lia. }
        assert (moved a (S J) s s') as Hmoved by (apply moved_swap; lia).
        destruct (IH s' a J) as (s'' & Heq & Hm & Hsorted); [lia|lia| | | |].
        { unfold s'. by rewrite !length_insert. }
        { intros i1 i2 ? ? ? ? ?. rewrite !Hs'.
          repeat case_decide; subst; try lia; first [apply cmp_refl|apply Hrest; lia]. }
        { intros k ? ?. rewrite !Hs'.
          repeat case_decide; subst; try lia; first [exact Hle|apply Hright; lia]. }
        exists s''. split_and!; [done| |done]. by apply (moved_trans _ _ _ s').
      * apply cmp_flip in Hle. apply moves_Done. intros i1 i2 ? ? ?.
        destruct (decide (i1 = S j)) as [->|?], (decide (i2 = S j)) as [->|?].
        -- apply cmp_refl.
        -- apply Hright; lia.
        -- apply (le_trans _ (s !!! j)); [|done].
           destruct (decide (i1 = j)) as [->|]; [apply cmp_refl|apply Hrest; lia].
        -- apply Hrest; lia.
    + apply moves_Done. intros i1 i2 ? ? ?.
      destruct (decide (i1 = S j)) as [->|?], (decide (i2 = S j)) as [->|?].
      * apply cmp_refl.
      * apply Hright; lia.
      * lia.
      * apply Hrest; lia.
Qed.

Lemma insertionSort_outer_sorts n : ∀ (s : list A) a i,
  a <= i -> i + n <= length s -> sorted_on le a i s ->
  moves a (i + n) s (insertionSort_outer s a i n) (sorted_on le a (i + n)).
Proof.
  induction n as [|n IH]; intros s a i Ha Hlen Hs; simpl.
  - rewrite Nat.add_0_r. by apply moves_Done.
  - eapply moves_bind.
    + apply (moves_mono a (S i) a (i + S n) s _ (sorted_on le a (S i)) (sorted_on le a (S i)));
        [lia|lia|done|].
      apply insertionSort_inner_sorts; [lia..| |lia].
      intros i1 i2 ? ? ? ? ?. apply Hs; lia.
    + intros s' Hlen' Hs'. replace (i + S n) with (S i + n) by lia.
      apply IH; [lia|lia|done].
Qed.

Lemma insertionSort_sorts (s : list A) a b :
  b <= length s ->
  moves a b s (insertionSort s a b) (sorted_on le a b).
Proof.
  intros Hb. unfold insertionSort. destruct (decide (a + 1 <= b)).
  - pose proof (insertionSort_outer_sorts (b - (a + 1)) s a (a + 1)) as Houter.
    replace (a + 1 + (b - (a + 1))) with b in Houter by lia.
    apply Houter; [lia|lia|].
    intros i j ? ? ?. replace j with i by lia. apply cmp_refl.
  - replace (b - (a + 1)) with 0 by lia. simpl. apply moves_Done.
    intros i j ? ? ?. lia.
Qed.

(** ** Moves of blocks *)

Lemma rearranged_moved pi a b (s s' : list A) :
  rearranged pi s s' ->
  (∀ k, a <= k < b -> a <= pi k < b) ->
  (∀ k, k < a ∨ b <= k -> pi k = k) ->
  moved a b s s'.
Proof.
  intros [Hlen Hpi] Hin Hout. split_and!; [done| |].
  - intros k Hk. by rewrite Hpi, Hout.
  - intros k Hk. exists (pi k). split; [by apply Hin|apply Hpi].
Qed.

Lemma rearranges_ext pi pi' (s : list A) m :
  rearranges pi s m -> (∀ k, pi k = pi' k) -> rearranges pi' s m.
Proof.
  intros (s' & -> & Hlen & Hpi) Hext. exists s'. split; [done|]. split; [done|].
  intros k. by rewrite Hpi, Hext.
Qed.

Lemma rearranges_bind pi1 pi2 (s : list A) m f :
  rearranges pi1 s m ->
  (∀ s', length s' = length s -> rearranges pi2 s' (f s')) ->
  rearranges (λ k, pi1 (pi2 k)) s (m ≫= f).
Proof.
  intros (s1 & -> & Hlen1 & Hpi1) Hf.
  destruct (Hf s1 Hlen1) as (s2 & Hs2 & Hlen2 & Hpi2).
  exists s2. split; [done|]. split; [congruence|].
  intros k. by rewrite Hpi2, Hpi1.
Qed.

Lemma rearranges_Swap (s : list A) i j :
  i < length s -> j < length s ->
  rearranges (λ k, if decide (k = j) then i else if decide (k = i) then j else k)
    s (Swap s i j).
Proof.
  intros Hi Hj. rewrite Swap_insert by done. eexists. split; [done|]. split.
  - by rewrite !length_insert.
  - intros k. rewrite swapped_total by done. by repeat case_decide.
Qed.

Lemma swapRange_loop_rearranges n : ∀ (s : list A) a b i,
  a + i + n <= b + i -> b + i + n <= length s ->
  rearranges (λ k, if decide (a + i <= k < a + i + n) then k + (b - a)
                   else if decide (b + i <= k < b + i + n) then k - (b - a) else k)
    s (swapRange_loop s a b i n).
Proof.
  induction n as [|n IH]; intros s a b i Hab Hlen; simpl.
  - exists s. split; [done|]. split; [done|]. intros k. repeat case_decide; f_equal; lia.
  - eapply rearranges_ext.
    + eapply rearranges_bind; [apply (rearranges_Swap s (a + i) (b + i)); lia|].
      intros s' Hlen'. apply (IH s' a b (S i)); lia.
    + intros k. simpl. repeat case_decide; lia.
Qed.

Lemma swapRange_rearranges (s : list A) a b n :
  a + n <= b -> b + n <= length s ->
  rearranges (λ k, if decide (a <= k < a + n) then k + (b - a)
                   else if decide (b <= k < b + n) then k - (b - a) else k)
    s (swapRange s a b n).
Proof.
  intros Hab Hlen. eapply rearranges_ext.
  - apply (swapRange_loop_rearranges n s a b 0); lia.
  - intros k. simpl. repeat case_decide; lia.
Qed.

(** [rotate] exchanges the block of [i] elements before [m] with the
    block of [j] elements from [m] on. *)
Lemma rotate_loop_rearranges fuel : ∀ (s : list A) m i j,
  0 < i -> 0 < j -> i <= m -> m + j <= length s -> i + j <= fuel ->
  rearranges (λ k, if decide (m - i <= k < m - i + j) then k + i
                   else if decide (m - i + j <= k < m + j) then k - j else k)
    s (rotate_loop fuel s m i j).
Proof.
  induction fuel as [|fuel IH]; intros s m i j Hi Hj Him Hlen Hfuel; [lia|].
  simpl. case_decide as Hij.
  { subst. eapply rearranges_ext; [apply swapRange_rearranges; lia|].
    intros k. simpl. repeat case_decide; lia. }
  case_decide as Hlt.
  - eapply rearranges_ext.
    + eapply rearranges_bind; [apply (swapRange_rearranges s (m - i) m j); lia|].
      intros s' Hlen'. apply (IH s' m (i - j) j); lia.
    + intros k. simpl. repeat case_decide; lia.
  - eapply rearranges_ext.
    + eapply rearranges_bind; [apply (swapRange_rearranges s (m - i) (m + j - i) i); lia|].
      intros s' Hlen'. apply (IH s' m i (j - i)); lia.
    + intros k. simpl. repeat case_decide; lia.
Qed.

Lemma rotate_rearranges (s : list A) a m b :
  a < m -> m < b -> b <= length s ->
  rearranges (λ k, if decide (a <= k < a + (b - m)) then k + (m - a)
                   else if decide (a + (b - m) <= k < b) then k - (b - m) else k)
    s (rotate s a m b).
Proof.
  intros Ham Hmb Hb. eapply rearranges_ext.
  - apply (rotate_loop_rearranges (b - a) s m (m - a) (b - m)); lia.
  - intros k. simpl. repeat case_decide; lia.
Qed.

Lemma bubble_up_rearranges n : ∀ (s : list A) k0,
  k0 + n < length s ∨ n = 0 ->
  rearranges (λ k, if decide (k0 <= k < k0 + n) then k + 1
                   else if decide (k = k0 + n) then k0 else k)
    s (bubble_up s k0 n).
Proof.
  induction n as [|n IH]; intros s k0 Hlen; simpl.
  - exists s. split; [done|]. split; [done|]. intros k. repeat case_decide; f_equal; lia.
  - eapply rearranges_ext.
    + eapply rearranges_bind; [apply (rearranges_Swap s k0 (k0 + 1)); lia|].
      intros s' Hlen'. apply (IH s' (S k0)); lia.
    + intros k. simpl. repeat case_decide; lia.
Qed.

Lemma bubble_down_rearranges n : ∀ (s : list A) k0,
  k0 < length s -> n <= k0 ->
  rearranges (λ k, if decide (k = k0 - n) then k0
                   else if decide (k0 - n < k <= k0) then k - 1 else k)
    s (bubble_down s k0 n).
Proof.
  induction n as [|n IH]; intros s k0 Hlen Hn; simpl.
  - exists s. split; [done|]. split; [done|]. intros k. repeat case_decide; f_equal; lia.
  - eapply rearranges_ext.
    + eapply rearranges_bind; [apply (rearranges_Swap s k0 (k0 - 1)); lia|].
      intros s' Hlen'. apply (IH s' (k0 - 1)); lia.
    + intros k. simpl. repeat case_decide; lia.
Qed.

(** ** The binary searches *)

Lemma half_bounds i j : i < j -> i <= (i + j) / 2 ∧ (i + j) / 2 < j.
Proof.
  intros. pose proof (Nat.div_mod (i + j) 2).
  pose proof (Nat.mod_upper_bound (i + j) 2). lia.
Qed.

Lemma search_first_finds fuel : ∀ (s : list A) a i j lo hi,
  a < length s -> hi <= length s -> lo <= i -> i <= j -> j <= hi -> j - i <= fuel ->
  sorted_on le lo hi s ->
  (∀ h, lo <= h < i -> le (s !!! h) (s !!! a) = true) ->
  (∀ h, j <= h < hi -> le (s !!! h) (s !!! a) = false) ->
  ∃ r, search_first fuel s a i j = Done r ∧ i <= r ∧ r <= j
       ∧ (∀ h, lo <= h < r -> le (s !!! h) (s !!! a) = true)
       ∧ (∀ h, r <= h < hi -> le (s !!! h) (s !!! a) = false).
Proof.
  induction fuel as [|fuel IH]; intros s a i j lo hi Ha Hhi Hlo Hij Hj Hfuel Hs Hlow Hhigh;
    simpl.
  - rewrite decide_False by lia. exists i. split_and!; [done|lia|lia|done|].
    intros h Hh. apply Hhigh. lia.
  - case_decide; [|exists i; split_and!; [done|lia|lia|done|intros h Hh; apply Hhigh; lia]].
    destruct (half_bounds i j) as [Hh1 Hh2]; [done|].
    rewrite Less_le by lia. simpl.
    destruct (le (s !!! ((i + j) / 2)) (s !!! a)) eqn:Hle.
    + destruct (IH s a ((i + j) / 2 + 1) j lo hi) as (r & -> & ? & ? & ? & ?);
        [lia..|done| |done|].
      { intros h Hh. destruct (decide (h < i)); [apply Hlow; lia|].
        apply (le_trans _ (s !!! ((i + j) / 2))); [apply Hs; lia|done]. }
      exists r. split_and!; [done|lia|lia|done|done].
    + destruct (IH s a i ((i + j) / 2) lo hi) as (r & -> & ? & ? & ? & ?);
        [lia..|done|done| |].
      { intros h Hh. destruct (decide (j <= h)); [apply Hhigh; lia|].
        destruct (le (s !!! h) (s !!! a)) eqn:Hle'; [|done].
        rewrite <- Hle. symmetry. apply (le_trans _ (s !!! h)); [apply Hs; lia|done]. }
      exists r. split_and!; [done|lia|lia|done|done].
Qed.

Lemma search_last_finds fuel : ∀ (s : list A) m i j lo hi,
  m < length s -> hi <= length s -> lo <= i -> i <= j -> j <= hi -> j - i <= fuel ->
  sorted_on le lo hi s ->
  (∀ h, lo <= h < i -> le (s !!! m) (s !!! h) = false) ->
  (∀ h, j <= h < hi -> le (s !!! m) (s !!! h) = true) ->
  ∃ r, search_last fuel s m i j = Done r ∧ i <= r ∧ r <= j
       ∧ (∀ h, lo <= h < r -> le (s !!! m) (s !!! h) = false)
       ∧ (∀ h, r <= h < hi -> le (s !!! m) (s !!! h) = true).
Proof.
  induction fuel as [|fuel IH]; intros s m i j lo hi Hm Hhi Hlo Hij Hj Hfuel Hs Hlow Hhigh;
    simpl.
  - rewrite decide_False by lia. exists i. split_and!; [done|lia|lia|done|].
    intros h Hh. apply Hhigh. lia.
  - case_decide; [|exists i; split_and!; [done|lia|lia|done|intros h Hh; apply Hhigh; lia]].
    destruct (half_bounds i j) as [Hh1 Hh2]; [done|].
    rewrite Less_le by lia. simpl.
    destruct (le (s !!! m) (s !!! ((i + j) / 2))) eqn:Hle; simpl.
    + destruct (IH s m i ((i + j) / 2) lo hi) as (r & -> & ? & ? & ? & ?);
        [lia..|done|done| |].
      { intros h Hh. destruct (decide (j <= h)); [apply Hhigh; lia|].
        apply (le_trans _ (s !!! ((i + j) / 2))); [done|apply Hs; lia]. }
      exists r. split_and!; [done|lia|lia|done|done].
    + destruct (IH s m ((i + j) / 2 + 1) j lo hi) as (r & -> & ? & ? & ? & ?);
        [lia..|done| |done|].
      { intros h Hh. destruct (decide (h < i)); [apply Hlow; lia|].
        destruct (le (s !!! m) (s !!! h)) eqn:Hle'; [|done].
        rewrite <- Hle. symmetry. apply (le_trans _ (s !!! h)); [done|apply Hs; lia]. }
      exists r. split_and!; [done|lia|lia|done|done].
Qed.

Lemma search_sym_finds fuel : ∀ (s : list A) p start r lo hi a m b,
  sorted_on le a m s -> sorted_on le m b s ->
  a <= lo -> hi <= m -> b <= length s -> m <= b ->
  (∀ c, lo <= c < hi -> m <= p - c < b) ->
  (∀ c c', lo <= c -> c <= c' -> c' < hi -> p - c' <= p - c) ->
  lo <= start -> start <= r -> r <= hi -> r - start <= fuel ->
  (∀ c, lo <= c < start -> le (s !!! (p - c)) (s !!! c) = false) ->
  (∀ c, r <= c < hi -> le (s !!! (p - c)) (s !!! c) = true) ->
  ∃ t, search_sym fuel s p start r = Done t ∧ start <= t ∧ t <= r
       ∧ (∀ c, lo <= c < t -> le (s !!! (p - c)) (s !!! c) = false)
       ∧ (∀ c, t <= c < hi -> le (s !!! (p - c)) (s !!! c) = true).
Proof.
  induction fuel as [|fuel IH];
    intros s p start r lo hi a m b HA HB Ha Hhi Hb Hmb Hp Hmono Hlo Hsr Hr Hfuel Hlow Hhigh;
    simpl.
  - rewrite decide_False by lia. exists start. split_and!; [done|lia|lia|done|].
    intros c Hc. apply Hhigh. lia.
  - case_decide;
      [|exists start; split_and!; [done|lia|lia|done|intros c Hc; apply Hhigh; lia]].
    destruct (half_bounds start r) as [Hh1 Hh2]; [done|].
    set (c0 := (start + r) / 2) in *.
    pose proof (Hp c0 ltac:(lia)) as Hpc0.
    rewrite Less_le by lia. simpl.
    destruct (le (s !!! (p - c0)) (s !!! c0)) eqn:Hle; simpl.
    + destruct (IH s p start c0 lo hi a m b) as (t & -> & ? & ? & ? & ?);
        [done|done|lia..|done|done|lia|lia|lia|lia|done| |].
      { intros c Hc. destruct (decide (r <= c)); [apply Hhigh; lia|].
        pose proof (Hp c ltac:(lia)). pose proof (Hmono c0 c ltac:(lia) ltac:(lia) ltac:(lia)).
        apply (le_trans _ (s !!! (p - c0))); [apply HB; lia|].
        apply (le_trans _ (s !!! c0)); [done|apply HA; lia]. }
      exists t. split_and!; [done|lia|lia|done|done].
    + destruct (IH s p (c0 + 1) r lo hi a m b) as (t & -> & ? & ? & ? & ?);
        [done|done|lia..|done|done|lia|lia|lia|lia| |done|].
      { intros c Hc. destruct (decide (c < start)); [apply Hlow; lia|].
        destruct (le (s !!! (p - c)) (s !!! c)) eqn:Hle'; [|done].
        pose proof (Hp c ltac:(lia)). pose proof (Hmono c c0 ltac:(lia) ltac:(lia) ltac:(lia)).
        rewrite <- Hle. symmetry. apply (le_trans _ (s !!! (p - c))); [apply HB; lia|].
        apply (le_trans _ (s !!! c)); [done|apply HA; lia]. }
      exists t. split_and!; [done|lia|lia|done|done].
Qed.

(** ** Merging two sorted runs *)

Lemma below_moved_l a mid b (s s' : list A) :
  below le a mid b s -> moved a mid s s' -> below le a mid b s'.
Proof.
  intros Hbelow (_ & Hout & Hin) k1 k2 Hk1 Hk2.
  destruct (Hin k1 Hk1) as (k1' & Hk1' & ->). rewrite (Hout k2) by lia.
  by apply Hbelow.
Qed.

Lemma below_moved_r a mid b (s s' : list A) :
  below le a mid b s -> moved mid b s s' -> below le a mid b s'.
Proof.
  intros Hbelow (_ & Hout & Hin) k1 k2 Hk1 Hk2.
  destruct (Hin k2 Hk2) as (k2' & Hk2' & ->). rewrite (Hout k1) by lia.
  by apply Hbelow.
Qed.

Lemma sorted_on_join a mid b (s : list A) :
  sorted_on le a mid s -> sorted_on le mid b s -> below le a mid b s ->
  sorted_on le a b s.
Proof.
  intros Hl Hr Hbelow i j Hi Hij Hj.
  destruct (decide (j < mid)); [apply Hl; lia|].
  destruct (decide (mid <= i)); [apply Hr; lia|].
  apply Hbelow; lia.
Qed.

Lemma sorted_on_sub a b a' b' (s : list A) :
  sorted_on le a b s -> a <= a' -> b' <= b -> sorted_on le a' b' s.
Proof. intros Hs ? ? i j ? ? ?. apply Hs; lia. Qed.

(** The state after the rotation in [symMerge]: four sorted runs, the
    first two below the last two. *)
Lemma symMerge_split (s s1 : list A) a m b mid start :
  sorted_on le a m s -> sorted_on le m b s ->
  a < m -> m < b -> b <= length s ->
  a <= start -> start <= m -> start <= mid -> m <= mid + m - start -> mid + m - start <= b ->
  a <= mid -> mid <= b ->
  (a < start -> mid + m - start < b ->
   le (s !!! (start - 1)) (s !!! (mid + m - start)) = true) ->
  (m < mid + m - start -> start < m ->
   le (s !!! (mid + m - start - 1)) (s !!! start) = true) ->
  rearranged (λ k, if decide (start <= k < start + (mid + m - start - m)) then k + (m - start)
                   else if decide (start + (mid + m - start - m) <= k < mid + m - start)
                        then k - (mid + m - start - m) else k) s s1 ->
  moved a b s s1
  ∧ sorted_on le a start s1 ∧ sorted_on le start mid s1
  ∧ sorted_on le mid (mid + m - start) s1 ∧ sorted_on le (mid + m - start) b s1
  ∧ below le a mid b s1.
Proof.
  intros HA HB Ham Hmb Hb Has Hsm Hsmid Hme Heb Hamid Hmidb HL HH Hre.
  set (en := mid + m - start) in *.
  assert (∀ k1 k2, a <= k1 < start -> en <= k2 < b -> le (s !!! k1) (s !!! k2) = true) as F1.
  { intros k1 k2 Hk1 Hk2.
    apply (le_trans _ (s !!! (start - 1))); [apply HA; lia|].
    apply (le_trans _ (s !!! en)); [apply HL; lia|apply HB; lia]. }
  assert (∀ k1 k2, m <= k1 < en -> start <= k2 < m -> le (s !!! k1) (s !!! k2) = true) as F2.
  { intros k1 k2 Hk1 Hk2.
    apply (le_trans _ (s !!! (en - 1))); [apply HB; lia|].
    apply (le_trans _ (s !!! start)); [apply HH; lia|apply HA; lia]. }
  destruct Hre as [Hlen Hpi]. split_and!.
  - apply (rearranged_moved _ a b s s1 (conj Hlen Hpi)).
    + intros k Hk. repeat case_decide; lia.
    + intros k Hk. repeat case_decide; lia.
  - intros i j ? ? ?. rewrite !Hpi. repeat case_decide; try lia. apply HA; lia.
  - intros i j ? ? ?. rewrite !Hpi. repeat case_decide; try lia. apply HB; lia.
  - intros i j ? ? ?. rewrite !Hpi. repeat case_decide; try lia. apply HA; lia.
  - intros i j ? ? ?. rewrite !Hpi. repeat case_decide; try lia. apply HB; lia.
  - intros k1 k2 ? ?. rewrite !Hpi. repeat case_decide; try lia.
    + apply F2; lia.
    + apply HB; lia.
    + apply HA; lia.
    + apply F1; lia.
Qed.

Lemma symMerge_halves fuel (s s1 : list A) a b mid start en :
  (∀ (s : list A) a m b,
     a < m -> m < b -> b <= length s -> b - a <= fuel ->
     sorted_on le a m s -> sorted_on le m b s ->
     moves a b s (symMerge fuel s a m b) (sorted_on le a b)) ->
  b <= length s1 -> mid - a <= fuel -> b - mid <= fuel ->
  a <= start -> start <= mid -> mid <= en -> en <= b ->
  moved a b s s1 ->
  sorted_on le a start s1 -> sorted_on le start mid s1 ->
  sorted_on le mid en s1 -> sorted_on le en b s1 ->
  below le a mid b s1 ->
  moves a b s
    (data2 ← (if decide (a < start ∧ start < mid) then symMerge fuel s1 a start mid
              else Done s1);
     if decide (mid < en ∧ en < b) then symMerge fuel data2 mid en b else Done data2)
    (sorted_on le a b).
Proof.
  intros IH Hb Hf1 Hf2 Has Hsm Hme Heb Hmoved P1 P2 P3 P4 P5.
  assert (moves a b s1
    (data2 ← (if decide (a < start ∧ start < mid) then symMerge fuel s1 a start mid
              else Done s1);
     if decide (mid < en ∧ en < b) then symMerge fuel data2 mid en b else Done data2)
    (sorted_on le a b)) as (s3 & Heq & Hm3 & Hs3).
  { apply (moves_bind a b s1 _ _
             (λ s2, sorted_on le a mid s2 ∧ sorted_on le mid en s2
                    ∧ sorted_on le en b s2 ∧ below le a mid b s2)).
    - case_decide as Hc.
      + apply (moves_mono a mid a b s1 _ (sorted_on le a mid)); [lia|lia| |apply IH; try done; lia].
        intros s2 Hm2 Hs2. split_and!; [done| | |by apply (below_moved_l _ _ _ s1)].
        * apply (sorted_on_moved _ _ a mid s1); [done|done|lia].
        * apply (sorted_on_moved _ _ a mid s1); [done|done|lia].
      + apply moves_Done. split_and!; try done.
        destruct (decide (a < start)).
        * assert (start = mid) as -> by lia. done.
        * assert (start = a) as -> by lia. done.
    - intros s2 Hlen2 (Q1 & Q3 & Q4 & Q5). case_decide as Hc.
      + apply (moves_mono mid b a b s2 _ (sorted_on le mid b)); [lia|lia| |apply IH; try done; lia].
        intros s3 Hm3 Hs3. apply (sorted_on_join a mid b); [|done|by apply (below_moved_r _ _ _ s2)].
        apply (sorted_on_moved _ _ mid b s2); [done|done|lia].
      + apply moves_Done. apply (sorted_on_join a mid b); [done| |done].
        destruct (decide (mid < en)).
        * assert (en = b) as -> by lia. done.
        * assert (en = mid) as -> by lia. done. }
  exists s3. split_and!; [done| |done]. by apply (moved_trans _ _ _ s1).
Qed.

Lemma symMerge_sorts fuel : ∀ (s : list A) a m b,
  a < m -> m < b -> b <= length s -> b - a <= fuel ->
  sorted_on le a m s -> sorted_on le m b s ->
  moves a b s (symMerge fuel s a m b) (sorted_on le a b).
Proof.
  induction fuel as [|fuel IH]; intros s a m b Ham Hmb Hb Hfuel HA HB; [lia|].
  simpl. case_decide as Hleft.
  { destruct (search_first_finds (b - m) s a m b m b) as (i & -> & ? & ? & Hlow & Hhigh);
      [lia..|done| | |].
    { intros h Hh. lia. }
    { intros h Hh. lia. }
    simpl. destruct (bubble_up_rearranges (i - 1 - a) s a) as (s' & -> & Hlen & Hpi); [lia|].
    exists s'. split_and!; [done| |].
    - apply (rearranged_moved _ a b s s' (conj Hlen Hpi)).
      + intros k Hk. repeat case_decide; lia.
      + intros k Hk. repeat case_decide; lia.
    - intros k1 k2 ? ? ?. rewrite !Hpi. repeat case_decide; try lia.
      + apply HB; lia.
      + replace (a + (i - 1 - a)) with (i - 1) in * by lia. subst. apply Hlow. lia.
      + apply HB; lia.
      + apply cmp_refl.
      + apply cmp_flip. apply Hhigh. lia.
      + apply HB; lia. }
  case_decide as Hright.
  { destruct (search_last_finds (m - a) s m a m a m) as (i & -> & ? & ? & Hlow & Hhigh);
      [lia..|done| | |].
    { intros h Hh. lia. }
    { intros h Hh. lia. }
    simpl. destruct (bubble_down_rearranges (m - i) s m) as (s' & -> & Hlen & Hpi); [lia..|].
    exists s'. split_and!; [done| |].
    - apply (rearranged_moved _ a b s s' (conj Hlen Hpi)).
      + intros k Hk. repeat case_decide; lia.
      + intros k Hk. repeat case_decide; lia.
    - intros k1 k2 ? ? ?. rewrite !Hpi.
      repeat case_decide; try lia;
        first [apply cmp_refl|apply HA; lia|apply Hhigh; lia|apply cmp_flip; apply Hlow; lia]. }
  assert (a + b <= 2 * ((a + b) / 2) + 1 ∧ 2 * ((a + b) / 2) <= a + b) as [Hmid Hmid'].
  { pose proof (Nat.div_mod (a + b) 2). pose proof (Nat.mod_upper_bound (a + b) 2). lia. }
  set (mid := (a + b) / 2) in *.
  case_decide as Hcase.
  - destruct (search_sym_finds (mid - (mid + m - b)) s (mid + m - 1) (mid + m - b) mid
                (mid + m - b) mid a m b)
      as (start & -> & ? & ? & Hlow & Hhigh); [done|done|(intros; lia)..|].
    simpl.
    assert (rearranges
              (λ k, if decide (start <= k < start + (mid + m - start - m)) then k + (m - start)
                    else if decide (start + (mid + m - start - m) <= k < mid + m - start)
                         then k - (mid + m - start - m) else k)
              s (if decide (start < m ∧ m < mid + m - start)
                 then rotate s start m (mid + m - start) else Done s))
      as (s1 & -> & Hre).
    { case_decide.
      - apply rotate_rearranges; lia.
      - exists s. split; [done|]. split; [done|]. intros k. repeat case_decide; f_equal; lia. }
    simpl.
    destruct (symMerge_split s s1 a m b mid start)
      as (Hmoved & P1 & P2 & P3 & P4 & P5); [done|done|lia..| | |done|].
    { intros ? ?. replace (mid + m - start) with (mid + m - 1 - (start - 1)) by lia.
      apply cmp_flip. apply Hlow. lia. }
    { intros ? ?. replace (mid + m - start - 1) with (mid + m - 1 - start) by lia.
      apply Hhigh. lia. }
    apply (symMerge_halves fuel s s1 a b mid start (mid + m - start)); try done; try lia.
    destruct Hre as [-> _]. done.
  - destruct (search_sym_finds (m - a) s (mid + m - 1) a m a m a m b)
      as (start & -> & ? & ? & Hlow & Hhigh); [done|done|(intros; lia)..|].
    simpl.
    assert (rearranges
              (λ k, if decide (start <= k < start + (mid + m - start - m)) then k + (m - start)
                    else if decide (start + (mid + m - start - m) <= k < mid + m - start)
                         then k - (mid + m - start - m) else k)
              s (if decide (start < m ∧ m < mid + m - start)
                 then rotate s start m (mid + m - start) else Done s))
      as (s1 & -> & Hre).
    { case_decide.
      - apply rotate_rearranges; lia.
      - exists s. split; [done|]. split; [done|]. intros k. repeat case_decide; f_equal; lia. }
    simpl.
    destruct (symMerge_split s s1 a m b mid start)
      as (Hmoved & P1 & P2 & P3 & P4 & P5); [done|done|lia..| | |done|].
    { intros ? ?. replace (mid + m - start) with (mid + m - 1 - (start - 1)) by lia.
      apply cmp_flip. apply Hlow. lia. }
    { intros ? ?. replace (mid + m - start - 1) with (mid + m - 1 - start) by lia.
      apply Hhigh. lia. }
    apply (symMerge_halves fuel s s1 a b mid start (mid + m - start)); try done; try lia.
    destruct Hre as [-> _]. done.
Qed.

(** ** The rounds of [stable] *)

Lemma all_runs_unfold bs a n (s : list A) :
  all_runs le bs a n s
  <-> sorted_on le a (Nat.min (a + bs) n) s ∧ all_runs le bs (a + bs) n s.
Proof.
  split.
  - intros Hall. split; [apply (Hall 1)|]. intros c. apply (Hall (S c)).
  - intros [Hfirst Hrest] [|c]; [done|]. split; [done|apply Hrest].
Qed.

Lemma all_runs_beyond bs a n (s : list A) : n <= a -> all_runs le bs a n s.
Proof.
  intros Ha c. revert a Ha. induction c as [|c IH]; intros a Ha; [done|].
  split; [|apply IH; lia]. intros i j ? ? ?. lia.
Qed.

Lemma all_runs_moved bs a n x y (s s' : list A) :
  all_runs le bs a n s -> moved x y s s' -> y <= a -> all_runs le bs a n s'.
Proof.
  intros Hall Hm Hy c. specialize (Hall c). revert a Hy Hall.
  induction c as [|c IH]; intros a Hy Hall; [done|]. destruct Hall as [Hfirst Hrest].
  split; [|apply IH; [lia|done]].
  apply (sorted_on_moved _ _ x y s); [done|done|lia].
Qed.

Lemma stable_blocks_runs fuel bs n : ∀ (s : list A) a,
  0 < bs -> n <= length s -> a <= n -> n - a <= fuel ->
  ∃ s1 a1, stable_blocks fuel s bs a n = Done (s1, a1)
           ∧ moved a a1 s s1 ∧ a <= a1 ∧ a1 <= n
           ∧ (∀ s2, moved a1 n s1 s2 -> sorted_on le a1 n s2 -> all_runs le bs a n s2).
Proof.
  induction fuel as [|fuel IH]; intros s a Hbs Hn Ha Hfuel; simpl.
  - rewrite decide_False by lia. exists s, a. split_and!; [done|apply moved_refl|lia|lia|].
    intros s2 _ Hs2. apply all_runs_unfold. split; [|apply all_runs_beyond; lia].
    apply (sorted_on_sub a n); [done|lia|lia].
  - case_decide as Hfull.
    + destruct (insertionSort_sorts s a (a + bs)) as (s0 & -> & Hm0 & Hs0); [lia|].
      simpl. destruct (IH s0 (a + bs)) as (s1 & a1 & -> & Hm1 & ? & ? & Hcont);
        [done|destruct Hm0 as [-> _]; lia|lia|lia|].
      exists s1, a1. split_and!; [done| |lia|lia|].
      { apply (moved_trans _ _ _ s0); [apply (moved_mono a (a + bs))|apply (moved_mono (a + bs) a1)];
          done || lia. }
      intros s2 Hm2 Hs2. apply all_runs_unfold. split; [|by apply Hcont].
      apply (sorted_on_moved _ _ a1 n s1); [|done|lia].
      apply (sorted_on_moved _ _ (a + bs) a1 s0); [|done|lia].
      apply (sorted_on_sub a (a + bs)); [done|lia|lia].
    + exists s, a. split_and!; [done|apply moved_refl|lia|lia|].
      intros s2 _ Hs2. apply all_runs_unfold. split; [|apply all_runs_beyond; lia].
      apply (sorted_on_sub a n); [done|lia|lia].
Qed.

Lemma stable_pairs_runs fuel bs n : ∀ (s : list A) a,
  0 < bs -> n <= length s -> a <= n -> n - a <= fuel ->
  all_runs le bs a n s ->
  ∃ s1 a1, stable_pairs fuel s bs a n = Done (s1, a1)
           ∧ moved a a1 s s1 ∧ a <= a1 ∧ a1 <= n ∧ n < a1 + 2 * bs
           ∧ all_runs le bs a1 n s1
           ∧ (∀ s2, moved a1 n s1 s2 -> sorted_on le a1 n s2 ->
                    all_runs le (2 * bs) a n s2).
Proof.
  induction fuel as [|fuel IH]; intros s a Hbs Hn Ha Hfuel Hruns.
  - simpl. rewrite decide_False by lia. exists s, a.
    split_and!; [done|apply moved_refl|lia|lia|lia|done|].
    intros s2 _ Hs2. apply all_runs_unfold. split; [|apply all_runs_beyond; lia].
    apply (sorted_on_sub a n); [done|lia|lia].
  - cbn [stable_pairs]. case_decide as Hfull.
    + apply all_runs_unfold in Hruns as [Hr1 Hruns].
      apply all_runs_unfold in Hruns as [Hr2 Hruns].
      destruct (symMerge_sorts n s a (a + bs) (a + 2 * bs)) as (s0 & -> & Hm0 & Hs0);
        [lia|lia|lia|lia| | |].
      { apply (sorted_on_sub _ _ _ _ _ Hr1); lia. }
      { apply (sorted_on_sub _ _ _ _ _ Hr2); lia. }
      cbn [mbind outcome_bind].
      destruct (IH s0 (a + 2 * bs)) as (s1 & a1 & -> & Hm1 & ? & ? & ? & Hruns1 & Hcont);
        [done|destruct Hm0 as [-> _]; lia|lia|lia| |].
      { replace (a + 2 * bs) with (a + bs + bs) by lia.
        apply (all_runs_moved _ _ _ a (a + 2 * bs) s); [done|done|lia]. }
      exists s1, a1. split_and!; [done| |lia|lia|lia|done|].
      { apply (moved_trans _ _ _ s0);
          [apply (moved_mono a (a + 2 * bs))|apply (moved_mono (a + 2 * bs) a1)];
          done || lia. }
      intros s2 Hm2 Hs2. apply all_runs_unfold. split; [|by apply Hcont].
      apply (sorted_on_moved _ _ a1 n s1); [|done|lia].
      apply (sorted_on_moved _ _ (a + 2 * bs) a1 s0); [|done|lia].
      apply (sorted_on_sub a (a + 2 * bs)); [done|lia|lia].
    + exists s, a. split_and!; [done|apply moved_refl|lia|lia|lia|done|].
      intros s2 _ Hs2. apply all_runs_unfold. split; [|apply all_runs_beyond; lia].
      apply (sorted_on_sub a n); [done|lia|lia].
Qed.

Lemma stable_rounds_sorts fuel n : ∀ (s : list A) bs,
  0 < bs -> n <= length s -> n - bs <= fuel ->
  all_runs le bs 0 n s ->
  moves 0 n s (stable_rounds fuel s bs n) (sorted_on le 0 n).
Proof.
  induction fuel as [|fuel IH]; intros s bs Hbs Hn Hfuel Hruns.
  - simpl. rewrite decide_False by lia. apply moves_Done.
    apply all_runs_unfold in Hruns as [Hr _]. apply (sorted_on_sub _ _ _ _ _ Hr); lia.
  - cbn [stable_rounds]. case_decide as Hlt.
    + destruct (stable_pairs_runs n bs n s 0)
        as (s1 & a1 & -> & Hm1 & _ & ? & ? & Hruns1 & Hcont); [lia..|done|].
      cbn [mbind outcome_bind].
      assert (moves a1 n s1
                (if decide (a1 + bs < n) then symMerge n s1 a1 (a1 + bs) n else Done s1)
                (sorted_on le a1 n)) as (s2 & -> & Hm2 & Hs2).
      { apply all_runs_unfold in Hruns1 as [Hr1 Hruns1].
        apply all_runs_unfold in Hruns1 as [Hr2 _]. case_decide.
        - apply symMerge_sorts; [lia|lia|destruct Hm1 as [-> _]; lia|lia| |].
          + apply (sorted_on_sub _ _ _ _ _ Hr1); lia.
          + apply (sorted_on_sub _ _ _ _ _ Hr2); lia.
        - apply moves_Done. apply (sorted_on_sub _ _ _ _ _ Hr1); lia. }
      cbn [mbind outcome_bind].
      destruct (IH s2 (bs * 2)) as (s3 & -> & Hm3 & Hs3); [lia| |lia| |].
      { destruct Hm2 as [-> _]. destruct Hm1 as [-> _]. done. }
      { replace (bs * 2) with (2 * bs) by lia. by apply Hcont. }
      exists s3. split_and!; [done| |done].
      apply (moved_trans _ _ _ s2); [|done].
      apply (moved_trans _ _ _ s1); [apply (moved_mono 0 a1); done || lia|].
      apply (moved_mono a1 n); done || lia.
    + apply moves_Done.
      apply all_runs_unfold in Hruns as [Hr _]. apply (sorted_on_sub _ _ _ _ _ Hr); lia.
Qed.

(** [sort.Stable] sorts, whatever it does to ties. *)
Lemma Stable_sorts (s : list A) :
  moves 0 (length s) s (Stable s) (sorted_on le 0 (length s)).
Proof.
  unfold Stable, stable. rewrite Len_length.
  destruct (stable_blocks_runs (length s) 20 (length s) s 0)
    as (s1 & a1 & -> & Hm1 & _ & ? & Hcont); [lia..|].
  cbn [mbind outcome_bind].
  destruct (insertionSort_sorts s1 a1 (length s)) as (s2 & -> & Hm2 & Hs2);
    [destruct Hm1 as [-> _]; lia|].
  cbn [mbind outcome_bind].
  destruct (stable_rounds_sorts (length s) (length s) s2 20) as (s3 & -> & Hm3 & Hs3);
    [lia| |lia|by apply Hcont|].
  { destruct Hm2 as [-> _]. destruct Hm1 as [-> _]. done. }
  exists s3. split_and!; [done| |done].
  apply (moved_trans _ _ _ s2); [|done].
  apply (moved_trans _ _ _ s1); [apply (moved_mono 0 a1); done || lia|].
  apply (moved_mono a1 (length s)); done || lia.
Qed.
End sorting.

(** * The order of the list Fetch returns *)

Lemma sorted_on_StronglySorted {A} `{!Inhabited A} (le : A -> A -> bool)
    (R : relation A) (s : list A) :
  (∀ x y, le x y = true -> R x y) ->
  sorted_on le 0 (length s) s -> StronglySorted R s.
Proof.
  intros HR. induction s as [|x s IH]; intros Hs; [constructor|].
  constructor.
  - apply IH. intros i j ? ? ?. apply (Hs (S i) (S j)); simpl; lia.
  - apply Forall_forall. intros y Hy. apply list_elem_of_lookup in Hy as [j Hj].
    pose proof (lookup_lt_Some _ _ _ Hj).
    pose proof (Hs 0 (S j) ltac:(lia) ltac:(lia) ltac:(simpl; lia)) as Hle.
    simpl in Hle. apply HR. by rewrite (list_lookup_total_correct _ _ _ Hj) in Hle.
Qed.

Lemma node_then_id_leb_total x y :
  node_then_id_leb x y = true ∨ node_then_id_leb y x = true.
Proof.
  unfold node_then_id_leb. rewrite !bool_decide_eq_true. apply node_then_id_le_total.
Qed.

Lemma node_then_id_leb_trans x y z :
  node_then_id_leb x y = true -> node_then_id_leb y z = true ->
  node_then_id_leb x z = true.
Proof.
  unfold node_then_id_leb. rewrite !bool_decide_eq_true. apply node_then_id_le_trans.
Qed.

Lemma ByNodeThenID_Stable_sorted (s : list HealthService) :
  ∃ s', Stable s = Done s' ∧ s' ≡ₚ s ∧ StronglySorted node_then_id_le s'.
Proof.
  destruct (ByNodeThenID_Stable_Permutation s) as (s' & Heq & Hperm).
  destruct (@Stable_sorts HealthService _ node_then_id_leb ByNodeThenID_Interface
              node_then_id_leb_total node_then_id_leb_trans
              (λ _, eq_refl)
              (λ l i j Hi Hj, ByNodeThenID_Less_le l i j _ _
                                (list_lookup_lookup_total_lt l i Hi)
                                (list_lookup_lookup_total_lt l j Hj))
              (λ l i j Hi Hj, ByNodeThenID_Swap_Done l i j _ _
                                (list_lookup_lookup_total_lt l i Hi)
                                (list_lookup_lookup_total_lt l j Hj))
              s) as (s'' & Heq' & Hm & Hs).
  pose proof (eq_trans (eq_sym Heq) Heq') as Hsame. simplify_eq.
  exists s''. split_and!; [done|done|].
  destruct Hm as [Hlen _]. rewrite <- Hlen in Hs.
  apply (sorted_on_StronglySorted node_then_id_leb); [|done].
  intros x y Hxy. by apply bool_decide_eq_true in Hxy.
Qed.

Lemma StronglySorted_lookup {A} (R : relation A) (l : list A) i j x y :
  StronglySorted R l -> i < j -> l !! i = Some x -> l !! j = Some y -> R x y.
Proof.
  intros Hs. revert i j. induction Hs as [|z l Hs IH Hall]; intros i j Hij Hi Hj; [done|].
  destruct i as [|i], j as [|j]; simplify_eq/=; try lia.
  - rewrite Forall_forall in Hall. apply Hall. by apply list_elem_of_lookup_2 in Hj.
  - apply (IH i j); [lia|done|done].
Qed.

Lemma HealthServiceQuery_Fetch_entries_sorted d clients tr entries qm :
  active (hsq_stopCh d) ->
  hsq_near d = EmptyString ->
  HealthServiceQuery_answer d clients = inl (entries, qm) ->
  ∃ services,
    HealthServiceQuery_Fetch d clients tr
    = Done ((Some services,
             Some {| LastIndex := qm_LastIndex qm; LastContact := qm_LastContact qm |},
             None), d, (tr ++ [HealthServiceQuery_call d])%list)
    ∧ services ≡ₚ map HealthServiceQuery_service (filter (accepted (hsq_filters d)) entries)
    ∧ StronglySorted node_then_id_le services.
Proof.
  intros Hact Hnear Hans. unfold HealthServiceQuery_Fetch. rewrite Hact.
  unfold HealthServiceQuery_answer in Hans. rewrite <- HealthServiceQuery_passingOnly_spec in Hans.
  destruct d as [ch dc filters name near tag connect opts]; simpl in *.
  rewrite Hans. rewrite HealthServiceQuery_entries_spec. simpl.
  rewrite decide_True by done.
  destruct (ByNodeThenID_Stable_sorted
              (map HealthServiceQuery_service (filter (accepted filters) entries)))
    as (services & Heq & Hperm & Hsorted).
  assert (Stable (map HealthServiceQuery_service (filter (accepted filters) entries)
                  : ByNodeThenID) = Done services) as -> by exact Heq.
  simpl. exists services. done.
Qed.

(** X13.  Without a near-node hint, an unstopped Fetch whose transport
    answers with entries returns the records of the kept entries in
    ascending order of node name and, on equal node names, of service
    id. *)
Theorem HealthServiceQuery_Fetch_sorted (d : HealthServiceQuery) (clients : Clients)
    (tr : trace) (entries : list api_ServiceEntry) (qm : QueryMeta) :
  active (hsq_stopCh d) ->
  hsq_near d = EmptyString ->
  HealthServiceQuery_answer d clients = inl (entries, qm) ->
  ∃ services rm,
    HealthServiceQuery_Fetch d clients tr
    = Done ((Some services, Some rm, None), d, (tr ++ [HealthServiceQuery_call d])%list)
    ∧ services ≡ₚ map HealthServiceQuery_service (filter (accepted (hsq_filters d)) entries)
    ∧ ∀ i j x y, i < j -> services !! i = Some x -> services !! j = Some y ->
        String.ltb (Node x) (Node y) = true
        ∨ (Node x = Node y ∧ String.leb (ID x) (ID y) = true).
Proof.
  intros Hact Hnear Hans.
  destruct (HealthServiceQuery_Fetch_entries_sorted d clients tr entries qm Hact Hnear Hans)
    as (services & Heq & Hperm & Hsorted).
  exists services. eexists. split_and!; [exact Heq|exact Hperm|].
  intros i j x y Hij Hi Hj.
  apply (StronglySorted_lookup node_then_id_le services i j x y); done.
Qed.

Lemma NoDup_fmap_eq {A B} (f : A -> B) (l : list A) x y :
  NoDup (f <$> l) -> x ∈ l -> y ∈ l -> f x = f y -> x = y.
Proof.
  induction l as [|z l IH]; intros Hnd Hx Hy Hf; [by apply elem_of_nil in Hx|].
  rewrite fmap_cons in Hnd. apply NoDup_cons in Hnd as [Hz Hnd].
  apply elem_of_cons in Hx as [->|Hx], Hy as [->|Hy].
  - done.
  - destruct Hz. rewrite Hf. by apply list_elem_of_fmap_2.
  - destruct Hz. rewrite <- Hf. by apply list_elem_of_fmap_2.
  - by apply IH.
Qed.

Lemma HealthServiceQuery_service_key entry :
  (Node (HealthServiceQuery_service entry), ID (HealthServiceQuery_service entry))
  = sort_key entry.
Proof. reflexivity. Qed.

(** X14.  Without a near-node hint, when no two kept entries share both
    node name and service id, the list Fetch returns does not depend on
    the order in which the transport lists the entries. *)
Theorem HealthServiceQuery_Fetch_order_free (d : HealthServiceQuery)
    (clients1 clients2 : Clients) (tr1 tr2 : trace)
    (entries1 entries2 : list api_ServiceEntry) (qm1 qm2 : QueryMeta) :
  active (hsq_stopCh d) ->
  hsq_near d = EmptyString ->
  HealthServiceQuery_answer d clients1 = inl (entries1, qm1) ->
  HealthServiceQuery_answer d clients2 = inl (entries2, qm2) ->
  entries1 ≡ₚ entries2 ->
  NoDup (sort_key <$> filter (accepted (hsq_filters d)) entries1) ->
  ∃ services r1 r2 tr1' tr2',
    HealthServiceQuery_Fetch d clients1 tr1 = Done ((Some services, r1, None), d, tr1')
    ∧ HealthServiceQuery_Fetch d clients2 tr2 = Done ((Some services, r2, None), d, tr2').
Proof.
  intros Hact Hnear Hans1 Hans2 Hperm Hnd.
  destruct (HealthServiceQuery_Fetch_entries_sorted d clients1 tr1 entries1 qm1 Hact Hnear Hans1)
    as (services1 & Heq1 & Hperm1 & Hsorted1).
  destruct (HealthServiceQuery_Fetch_entries_sorted d clients2 tr2 entries2 qm2 Hact Hnear Hans2)
    as (services2 & Heq2 & Hperm2 & Hsorted2).
  assert (services1 = services2) as <-.
  { apply (StronglySorted_unique_strong node_then_id_le); [|done|done|].
    - intros x y Hx Hy Hxy Hyx.
      destruct (node_then_id_le_antisym x y Hxy Hyx) as [HNode HID].
      rewrite Hperm1 in Hx. rewrite Hperm2, <- Hperm in Hy.
      apply list_elem_of_fmap in Hx as (ex & -> & Hex).
      apply list_elem_of_fmap in Hy as (ey & -> & Hey).
      f_equal. apply (NoDup_fmap_eq sort_key _ ex ey Hnd Hex Hey).
      rewrite <- !HealthServiceQuery_service_key. by rewrite HNode, HID.
    - by rewrite Hperm1, Hperm2, Hperm. }
  do 5 eexists. split; [exact Heq1|exact Heq2].
Qed.

(** * Instances of the further statements *)

(** The sample instances are the ones the parser builds. *)
Example sample_instances_parsed :
  healthServiceQuery "web|warning,passing" false = inl sample_health
  ∧ healthServiceQuery "web|any" false = inl sample_any
  ∧ healthServiceQuery "web|," false = inl sample_none
  ∧ NewKVListQuery "app/config" = inl sample_kv.
Proof. split_and!; vm_compute; reflexivity. Qed.


Lemma healthServiceQuery_instance_sample :
  Sorted String.le (hsq_filters sample_health)
  ∧ Forall (λ f, f ∈ vocabulary) (hsq_filters sample_health)
  ∧ hsq_connect sample_health = false
  ∧ hsq_opts sample_health = zero_QueryOptions
  ∧ active (hsq_stopCh sample_health).
Proof.
  apply (healthServiceQuery_instance "web|warning,passing" false sample_health).
  vm_compute. reflexivity.
Defined.

Lemma HealthServiceQuery_Fetch_no_filters_sample :
  HealthServiceQuery_Fetch sample_none (sample_clients [] [entry_b; entry_a]) []
  = Done ((Some [], Some (mkResponseMetadata 7 0), None), sample_none,
          ([] ++ [HealthServiceQuery_call sample_none])%list).
Proof.
  apply (HealthServiceQuery_Fetch_no_filters sample_none
           (sample_clients [] [entry_b; entry_a]) [] [entry_b; entry_a] sample_meta);
    reflexivity.
Defined.

Lemma HealthServiceQuery_Fetch_any_sample :
  ∃ services,
    HealthServiceQuery_Fetch sample_any (sample_clients [] [entry_b; entry_a]) []
    = Done ((Some services, Some (mkResponseMetadata 7 0), None), sample_any,
            ([] ++ [HealthServiceQuery_call sample_any])%list)
    ∧ services ≡ₚ map HealthServiceQuery_service [entry_b; entry_a]
    ∧ (hsq_near sample_any ≠ EmptyString ->
       services = map HealthServiceQuery_service [entry_b; entry_a]).
Proof.
  apply (HealthServiceQuery_Fetch_any sample_any
           (sample_clients [] [entry_b; entry_a]) [] [entry_b; entry_a] sample_meta);
    [reflexivity| |reflexivity].
  apply (bool_decide_unpack _). vm_compute. exact I.
Defined.


Lemma Stop_after_stopped_sample :
  Stop (DepKVList (mkKVListQuery (Chan 1 0 true) "" "app/config" zero_QueryOptions))
  = Panic close_of_closed_channel.
Proof.
  apply Stop_after_stopped. apply (stopped_Stop (DepKVList sample_kv)). reflexivity.
Defined.

Lemma ByNodeThenID_Swap_swaps_sample :
  let s := [HealthServiceQuery_service entry_b; HealthServiceQuery_service entry_a] in
  let s' := [HealthServiceQuery_service entry_a; HealthServiceQuery_service entry_b] in
  Len s' = Len s
  ∧ s' !! 0 = s !! 1 ∧ s' !! 1 = s !! 0
  ∧ (∀ k, k ≠ 0 -> k ≠ 1 -> s' !! k = s !! k)
  ∧ Swap s 1 0 = Done s'
  ∧ Swap s' 0 1 = Done s.
Proof.
  apply (ByNodeThenID_Swap_swaps
           [HealthServiceQuery_service entry_b; HealthServiceQuery_service entry_a]
           [HealthServiceQuery_service entry_a; HealthServiceQuery_service entry_b] 0 1).
  reflexivity.
Defined.

Lemma ByNodeThenID_Less_total_transitive_sample :
  let s := [HealthServiceQuery_service entry_b; HealthServiceQuery_service entry_a;
            HealthServiceQuery_service tie_first] in
  (Less s 1 2 = Done true ∨ Less s 2 1 = Done true)
  ∧ (Less s 1 2 = Done true -> Less s 2 0 = Done true -> Less s 1 0 = Done true).
Proof.
  apply (ByNodeThenID_Less_total_transitive
           [HealthServiceQuery_service entry_b; HealthServiceQuery_service entry_a;
            HealthServiceQuery_service tie_first] 1 2 0); simpl; lia.
Defined.

Lemma ByNodeThenID_Less_both_sample :
  Node (HealthServiceQuery_service tie_first) = Node (HealthServiceQuery_service tie_second)
  ∧ ID (HealthServiceQuery_service tie_first) = ID (HealthServiceQuery_service tie_second).
Proof.
  apply (ByNodeThenID_Less_both
           [HealthServiceQuery_service tie_first; HealthServiceQuery_service tie_second]
           0 1); reflexivity.
Defined.

Lemma HealthServiceQuery_Fetch_sorted_sample :
  ∃ services rm,
    HealthServiceQuery_Fetch sample_any (sample_clients [] [entry_b; entry_a]) []
    = Done ((Some services, Some rm, None), sample_any,
            ([] ++ [HealthServiceQuery_call sample_any])%list)
    ∧ services ≡ₚ map HealthServiceQuery_service
                    (filter (accepted (hsq_filters sample_any)) [entry_b; entry_a])
    ∧ ∀ i j x y, i < j -> services !! i = Some x -> services !! j = Some y ->
        String.ltb (Node x) (Node y) = true
        ∨ (Node x = Node y ∧ String.leb (ID x) (ID y) = true).
Proof.
  apply (HealthServiceQuery_Fetch_sorted sample_any
           (sample_clients [] [entry_b; entry_a]) [] [entry_b; entry_a] sample_meta);
    reflexivity.
Defined.

Lemma HealthServiceQuery_Fetch_order_free_sample :
  ∃ services r1 r2 tr1' tr2',
    HealthServiceQuery_Fetch sample_any (sample_clients [] [entry_b; entry_a]) []
    = Done ((Some services, r1, None), sample_any, tr1')
    ∧ HealthServiceQuery_Fetch sample_any (sample_clients [] [entry_a; entry_b]) []
      = Done ((Some services, r2, None), sample_any, tr2').
Proof.
  apply (HealthServiceQuery_Fetch_order_free sample_any
           (sample_clients [] [entry_b; entry_a]) (sample_clients [] [entry_a; entry_b])
           [] [] [entry_b; entry_a] [entry_a; entry_b] sample_meta sample_meta);
    [reflexivity..| |].
  - apply perm_swap.
  - apply (bool_decide_unpack _). vm_compute. exact I.
Defined.
